(** * go-tcap: the BER length codec and the Information Element codec

    A shallow embedding of [util.go] (the length codec) and of the IE codec
    (tags, [IE], [MarshalTo], [ParseIE], [ParseMultiIEs], [ParseAsBER],
    [ParseRecursive]) with the properties of the design document stated
    and settled against it.

    Conventions of the embedding:
    - a Go [byte]/[uint8] is a [Byte.byte]; [u8] reads it as an integer and
      [to_byte] is Go's truncating conversion [byte(x)];
    - a Go [int] is 64 bits wide.  Every [int] the codec computes is a
      buffer length, a decoded [uint32], or a sum of a few of them, so it
      is modelled by [Z]; the conversions that do truncate ([byte(..)],
      [uint32(..)], [Tag(..)]) are written out with their modulus;
    - a slice is the list of its visible elements (capacity = length), and
      a nil slice is the empty list;
    - a Go function returning [(T, error)] returns a pair whose second
      component is [None] for a nil error;
    - a run-time panic (index or slice bounds out of range, nil
      dereference) is the outcome [Panic]; loops whose trip count depends
      on the input run on fuel, and [OutOfFuel] is shown unreachable. *)

From Stdlib Require Import String.
From Stdlib Require Import Strings.Byte.
From Stdlib Require Import ZArith List Lia Bool.
Import ListNotations.

Local Open Scope Z_scope.

(** ** Bytes *)

Abbreviation byte := Byte.byte.

(** [int(b)], [uint32(b)]: the value of a byte. *)
Definition u8 (b : byte) : Z := Z.of_N (Byte.to_N b).

(** [byte(x)] / [uint8(x)]: conversion of an integer, keeping the low
    eight bits. *)
Definition to_byte (x : Z) : byte :=
  match Byte.of_N (Z.to_N (x mod 256)) with
  | Some b => b
  | None => Byte.x00
  end.

(** [uint32(x)]. *)
Definition uint32 (x : Z) : Z := x mod 2 ^ 32.

(** [len(b)]. *)
Definition len {A : Type} (b : list A) : Z := Z.of_nat (length b).

(** ** Outcomes of a call *)

Inductive error : Type :=
| ErrUnexpectedEOF                (* io.ErrUnexpectedEOF *)
| ErrShortBuffer                  (* io.ErrShortBuffer *)
| Errorf (msg : string).          (* fmt.Errorf(msg) *)

(** The error kinds of the design document. *)
Inductive error_kind : Type := TruncatedBuffer | BufferTooSmall | UnsupportedEncoding.

Definition kind_of (e : error) : error_kind :=
  match e with
  | ErrUnexpectedEOF => TruncatedBuffer
  | ErrShortBuffer => BufferTooSmall
  | Errorf msg =>
      if String.eqb msg "indefinite length not supported"
      then UnsupportedEncoding else TruncatedBuffer
  end.

Inductive run (A : Type) : Type :=
| Ret (a : A)
| Panic
| OutOfFuel.

Arguments Ret {A} a.
Arguments Panic {A}.
Arguments OutOfFuel {A}.

Definition bind {A B : Type} (m : run A) (k : A -> run B) : run B :=
  match m with
  | Ret a => k a
  | Panic => Panic
  | OutOfFuel => OutOfFuel
  end.

Notation "x <- m ;; k" := (bind m (fun x => k))
  (at level 61, m at next level, right associativity).

(** [b[n]]: panics out of range. *)
Definition index (b : list byte) (n : Z) : run byte :=
  if (0 <=? n) && (n <? len b)
  then match nth_error b (Z.to_nat n) with Some x => Ret x | None => Panic end
  else Panic.

(** [b[lo:hi]]: panics unless [0 <= lo <= hi <= len(b)]. *)
Definition slice (b : list byte) (lo hi : Z) : run (list byte) :=
  if (0 <=? lo) && (lo <=? hi) && (hi <=? len b)
  then Ret (firstn (Z.to_nat (hi - lo)) (skipn (Z.to_nat lo) b))
  else Panic.

(** [b[lo:]]. *)
Definition slice_from (b : list byte) (lo : Z) : run (list byte) :=
  slice b lo (len b).

(** [copy(dst, src)] where [dst] is the window of [b] that starts at [off]
    and is [room] bytes long: the first [min(room, len(src))] bytes of
    [src] overwrite [b] from [off] on. *)
Definition copy_into (b : list byte) (off room : nat) (src : list byte) : list byte :=
  let n := Nat.min room (length src) in
  firstn off b ++ firstn n src ++ skipn (off + n) b.

(** ** util.go: the length codec *)

(** The accumulation loop of the decoder over the [numOctets] length
    bytes; [actualLength] is a [uint32]. *)
Definition accumulate (octets : list byte) : Z :=
  fold_left (fun actualLength x => Z.lor (uint32 (Z.shiftl actualLength 8)) (u8 x))
            octets 0.

(** The byte-extraction loop of the encoder, [for tempLen > 0 { ... }].
    [tempLen] is a [uint32], which has four octets: four rounds of fuel
    always reach the exit test (see [Marshal_fuel_enough]). *)
Fixpoint valBytes_loop (fuel : nat) (tempLen : Z) (valBytes : list byte) : list byte :=
  match fuel with
  | O => valBytes
  | S fuel' =>
      if 0 <? tempLen
      then valBytes_loop fuel' (Z.shiftr tempLen 8)
                         (to_byte (Z.land tempLen 255) :: valBytes)
      else valBytes
  end.

Definition MarshalAsn1ElementLength (length : Z) : list byte :=
  if length <=? 127 then [to_byte length]
  else
    let valBytes := valBytes_loop 4 (uint32 length) [] in
    let header := to_byte (Z.lor 128 (u8 (to_byte (len valBytes)))) in
    header :: valBytes.

Module Util.

(** src/util.go: the decoder returns the length, the number of bytes of
    the length field (header byte included) and an error. *)
Definition UnmarshalAsn1ElementLength (b : list byte) : Z * Z * option error :=
  if len b <? 2 then (0, 0, Some (Errorf "buffer too short to read length"))
  else
    let b1 := u8 (nth 1 b Byte.x00) in
    if b1 <=? 127 then (b1, 1, None)
    else
      let numOctets := Z.land b1 127 in
      if numOctets =? 0
      then (-1, 0, Some (Errorf "indefinite length not supported"))
      else if len b <? 2 + numOctets
      then (-1, 0, Some (Errorf "buffer too short for long-form length"))
      else
        let actualLength := accumulate (firstn (Z.to_nat numOctets) (skipn 2 b)) in
        (actualLength, 1 + numOctets, None).

End Util.

(** ** The IE codec, with the two-result decoder it is compiled against *)

(** The decoder the IE codec calls returns the length and an error only,
    and reads [b[1]] without a length check of its own. *)
Definition UnmarshalAsn1ElementLength (b : list byte) : run (Z * option error) :=
  x <- index b 1 ;;
  let b1 := u8 x in
  if b1 <=? 127 then Ret (b1, None)
  else
    let numOctets := Z.land b1 127 in
    if numOctets =? 0
    then Ret (-1, Some (Errorf "indefinite length not supported"))
    else if len b <? 2 + numOctets
    then Ret (-1, Some (Errorf "buffer too short for long-form length"))
    else Ret (accumulate (firstn (Z.to_nat numOctets) (skipn 2 b)), None).

(** *** Tags *)

(** [type Tag uint8]. *)
Abbreviation Tag := Byte.byte.

Definition Universal : Z := 0.
Definition ApplicationWide : Z := 1.
Definition ContextSpecific : Z := 2.
Definition Private : Z := 3.

Definition Primitive : Z := 0.
Definition Constructor : Z := 1.

Definition NewTag (cls form code : Z) : Tag :=
  to_byte (Z.lor (Z.lor (Z.shiftl cls 6) (Z.shiftl form 5)) code).

Definition Class (t : Tag) : Z := Z.land (Z.shiftr (u8 t) 6) 3.
Definition Form (t : Tag) : Z := Z.land (Z.shiftr (u8 t) 5) 1.
Definition Code (t : Tag) : Z := Z.land (u8 t) 31.

Definition NewUniversalPrimitiveTag (code : Z) : Tag :=
  NewTag Universal Primitive code.

Definition NewUniversalConstructorTag (code : Z) : Tag :=
  NewTag Universal Constructor code.

Definition NewApplicationWidePrimitiveTag (code : Z) : Tag :=
  NewTag ApplicationWide Primitive code.

Definition NewApplicationWideConstructorTag (code : Z) : Tag :=
  NewTag ApplicationWide Constructor code.

Definition NewContextSpecificPrimitiveTag (code : Z) : Tag :=
  NewTag ContextSpecific Primitive code.

Definition NewContextSpecificConstructorTag (code : Z) : Tag :=
  NewTag ContextSpecific Constructor code.

Definition NewPrivatePrimitiveTag (code : Z) : Tag :=
  NewTag Private Primitive code.

Definition NewPrivateConstructorTag (code : Z) : Tag :=
  NewTag Private Constructor code.

(** *** Information elements *)

#[warnings="-register-all"]
Inductive IE : Type :=
  mkIE { iTag : Tag; Length : Z; Value : list byte; iIE : list IE }.

(** [&IE{}]. *)
Definition zeroIE : IE := mkIE Byte.x00 0 [] [].

Definition set_Tag (i : IE) (t : Tag) : IE := mkIE t (Length i) (Value i) (iIE i).
Definition set_Length (i : IE) (n : Z) : IE := mkIE (iTag i) n (Value i) (iIE i).
Definition set_Value (i : IE) (v : list byte) : IE := mkIE (iTag i) (Length i) v (iIE i).
Definition set_IE (i : IE) (x : list IE) : IE := mkIE (iTag i) (Length i) (Value i) x.

Definition SetLength (i : IE) : IE := set_Length i (len (Value i)).

Definition NewIE (tag : Tag) (value : list byte) : IE :=
  SetLength (mkIE tag 0 value []).

Definition MarshalLen (ie : IE) : Z :=
  let lHeader := len (MarshalAsn1ElementLength (Length ie)) in
  1 + lHeader + Length ie.

(** [b[n] = x]. *)
Definition store (b : list byte) (n : Z) (x : byte) : run (list byte) :=
  if (0 <=? n) && (n <? len b)
  then Ret (firstn (Z.to_nat n) b ++ x :: skipn (S (Z.to_nat n)) b)
  else Panic.

(** [make([]byte, n)]. *)
Definition make (n : Z) : run (list byte) :=
  if n <? 0 then Panic else Ret (repeat Byte.x00 (Z.to_nat n)).

(** [MarshalTo] returns the buffer as it leaves it, and the error. *)
Definition MarshalTo (i : IE) (b : list byte) : run (list byte * option error) :=
  if len b <? 2 then Ret (b, Some ErrUnexpectedEOF)
  else
    let lenBytes := MarshalAsn1ElementLength (Length i) in
    let totalNeeded := 1 + len lenBytes + len (Value i) in
    if len b <? totalNeeded then Ret (b, Some ErrShortBuffer)
    else
      b <- store b 0 (iTag i) ;;
      dst <- slice_from b 1 ;;
      let b := copy_into b 1 (length dst) lenBytes in
      dst <- slice b 2 (MarshalLen i) ;;
      let b := copy_into b 2 (length dst) (Value i) in
      Ret (b, None).

Definition MarshalBinary (i : IE) : run (list byte * option error) :=
  b <- make (MarshalLen i) ;;
  r <- MarshalTo i b ;;
  match snd r with
  | Some err => Ret ([], Some err)
  | None => Ret (fst r, None)
  end.

(** [UnmarshalBinary] returns the receiver as it leaves it, and the error. *)
Definition UnmarshalBinary (i : IE) (b : list byte) : run (IE * option error) :=
  let l := len b in
  if l <? 3 then Ret (i, Some ErrUnexpectedEOF)
  else
    t <- index b 0 ;;
    let i := set_Tag i t in
    r <- UnmarshalAsn1ElementLength b ;;
    let i := set_Length i (fst r) in
    match snd r with
    | Some err => Ret (i, Some err)
    | None =>
        if l <? 2 + Length i then Ret (i, Some ErrUnexpectedEOF)
        else
          v <- slice b 2 (2 + Length i) ;;
          Ret (set_Value i v, None)
    end.

Definition ParseIE (b : list byte) : run (option IE * option error) :=
  r <- UnmarshalBinary zeroIE b ;;
  match snd r with
  | Some err => Ret (None, Some err)
  | None => Ret (Some (fst r), None)
  end.

(** The loop of [ParseMultiIEs]; every round drops at least one byte, so
    [S (length b)] rounds of fuel are never used up
    (see [ParseMultiIEs_loop_fuel]). *)
Fixpoint ParseMultiIEs_loop (fuel : nat) (ies : list IE) (b : list byte)
  : run (list IE * option error) :=
  match fuel with
  | O => OutOfFuel
  | S fuel' =>
      if len b =? 0 then Ret (ies, None)
      else
        r <- ParseIE b ;;
        match r with
        | (_, Some err) => Ret ([], Some err)
        | (None, None) => Panic
        | (Some i, None) =>
            let ies := ies ++ [i] in
            b <- slice_from b (MarshalLen i) ;;
            ParseMultiIEs_loop fuel' ies b
        end
  end.

Definition ParseMultiIEs (b : list byte) : run (list IE * option error) :=
  ParseMultiIEs_loop (S (length b)) [] b.

(** *** The recursive parser

    [ParseAsBER] and [ParseRecursive] call each other; the method is
    written over the function it calls for the value of a constructed
    element, and the knot is tied by the fuel of the loop. *)

Section Recursive.

Variable ParseAsBER_rec : list byte -> run (list IE * option error).

(** [ParseRecursive] returns the receiver as it leaves it, and the error. *)
Definition ParseRecursive_with (i : IE) (b : list byte) : run (IE * option error) :=
  let l := len b in
  if l <? 2 then Ret (i, Some ErrUnexpectedEOF)
  else
    t <- index b 0 ;;
    let i := set_Tag i t in
    r <- UnmarshalAsn1ElementLength b ;;
    let i := set_Length i (fst r) in
    match snd r with
    | Some err => Ret (i, Some err)
    | None =>
        if Length i + 2 >? len b then Ret (i, None)
        else
          v <- slice b 2 (2 + Length i) ;;
          let i := set_Value i v in
          if Form (iTag i) =? 1
          then
            x <- ParseAsBER_rec (Value i) ;;
            match snd x with
            | Some _ => Ret (i, None)
            | None => Ret (set_IE i (iIE i ++ fst x), None)
            end
          else Ret (i, None)
    end.

Definition ParseIERecursive_with (b : list byte) : run (option IE * option error) :=
  r <- ParseRecursive_with zeroIE b ;;
  match snd r with
  | Some err => Ret (None, Some err)
  | None => Ret (Some (fst r), None)
  end.

End Recursive.

(** [for _, ie := range i.IE { l += ie.MarshalLen() }], from [l = 2]. *)
Definition children_len (ies : list IE) : Z :=
  fold_left (fun l ie => l + MarshalLen ie) ies 2.

(** The loop of [ParseAsBER].  One unit of fuel is spent per round and per
    level of nesting; [S (length b)] units are never used up
    (see [ParseAsBER_loop_fuel]). *)
Fixpoint ParseAsBER_loop (fuel : nat) (ies : list IE) (b : list byte)
  : run (list IE * option error) :=
  match fuel with
  | O => OutOfFuel
  | S fuel' =>
      if len b =? 0 then Ret (ies, None)
      else
        r <- ParseIERecursive_with (ParseAsBER_loop fuel' []) b ;;
        match r with
        | (_, Some err) => Ret ([], Some err)
        | (None, None) => Panic
        | (Some i, None) =>
            let ies := ies ++ [i] in
            if len (iIE i) =? 0
            then
              b <- slice_from b (MarshalLen i) ;;
              ParseAsBER_loop fuel' ies b
            else
              match iIE i with
              | [] => Panic
              | i0 :: _ =>
                  if MarshalLen i0 <? MarshalLen i - 2
                  then
                    let l := children_len (iIE i) in
                    b <- slice_from b l ;;
                    ParseAsBER_loop fuel' ies b
                  else
                    b <- slice_from b (MarshalLen i) ;;
                    ParseAsBER_loop fuel' ies b
              end
        end
  end.

Definition ParseAsBER (b : list byte) : run (list IE * option error) :=
  ParseAsBER_loop (S (length b)) [] b.

Definition ParseAsBer (b : list byte) : run (list IE * option error) :=
  ParseAsBER b.

Definition ParseRecursive (i : IE) (b : list byte) : run (IE * option error) :=
  ParseRecursive_with ParseAsBER i b.

Definition ParseIERecursive (b : list byte) : run (option IE * option error) :=
  ParseIERecursive_with ParseAsBER b.

(** * Vocabulary of the statements *)

(** A bounded universal statement over integers, decided by enumeration. *)
Definition all_below (n : nat) (f : Z -> bool) : bool :=
  forallb f (map Z.of_nat (seq 0 n)).

(** The packing and the three accessors agree on one triple of fields. *)
Definition tag_fields_ok (cls form code : Z) : bool :=
  let t := NewTag cls form code in
  (u8 t =? Z.lor (Z.lor (Z.shiftl cls 6) (Z.shiftl form 5)) code)
  && (Class t =? cls) && (Form t =? form) && (Code t =? code).

(** The unsigned big-endian integer a sequence of octets denotes. *)
Definition be_value (octets : list byte) : Z :=
  fold_left (fun acc x => acc * 256 + u8 x) octets 0.

(** The first octet of a sequence is not zero. *)
Definition no_leading_zero (octets : list byte) : Prop :=
  match octets with
  | [] => False
  | x :: _ => u8 x <> 0
  end.

(** The error of the decoder on the indefinite-length header [0x80]. *)
Definition ErrIndefinite : error := Errorf "indefinite length not supported".

(** The layout the design document gives for a serialised element:
    [[tag_byte] ++ length_header(length) ++ value_bytes]. *)
Definition claimed_layout (i : IE) : list byte :=
  iTag i :: MarshalAsn1ElementLength (Length i) ++ Value i.

(** An element given by its tag and its value, as [NewIE] builds it. *)
Definition element (p : Tag * list byte) : IE := NewIE (fst p) (snd p).

(** The last element of a sequence, if there is one, has a value. *)
Definition ends_with_value (l : list (Tag * list byte)) : Prop :=
  l <> [] -> snd (last l (Byte.x00, [])) <> [].

(** The sum of the encoded sizes of a sequence of elements. *)
Definition total_len (ies : list IE) : Z :=
  fold_right (fun i acc => MarshalLen i + acc) 0 ies.

(** The bytes of an element of at most 127 value bytes: tag, length byte,
    value. *)
Definition short_encoding (p : Tag * list byte) : list byte :=
  fst p :: to_byte (len (snd p)) :: snd p.

(** The advance of the outer cursor of the recursive sequence parser as
    the design document words it: [2 + sum(child.MarshalLen())] if there
    are children and the first child's [MarshalLen] is strictly below the
    element's [MarshalLen] minus 2, the element's [MarshalLen] otherwise. *)
Definition cursor_advance (i : IE) : Z :=
  match iIE i with
  | first :: _ =>
      if MarshalLen first <? MarshalLen i - 2
      then 2 + total_len (iIE i)
      else MarshalLen i
  | [] => MarshalLen i
  end.

(** The length of an element is not negative. *)
Definition length_nonneg (i : IE) : Prop := 0 <= Length i.

(** The three fields of a tag. *)
Definition tag_fields (t : Tag) : Z * Z * Z := (Class t, Form t, Code t).

(** An element as the flat parser leaves it: the length is that of the
    value, and there are no children. *)
Definition flat_element (i : IE) : Prop :=
  Length i = len (Value i) /\ iIE i = [].

(** A primitive element of at most 127 value bytes, given by its tag and
    value. *)
Definition short_primitive (p : Tag * list byte) : Prop :=
  Form (fst p) = Primitive /\ len (snd p) <= 127.

(** The invariant of a parsed tree: at every node the length is that of
    the value, and only a node with a constructed tag has children. *)
Fixpoint well_formed (i : IE) : Prop :=
  match i with
  | mkIE t n v children =>
      n = len v
      /\ (children = [] \/ Form t = Constructor)
      /\ (fix all (l : list IE) : Prop :=
            match l with
            | [] => True
            | c :: l' => well_formed c /\ all l'
            end) children
  end.

(** The sum of the cursor advances over a sequence of elements. *)
Definition total_advance (ies : list IE) : Z :=
  fold_right (fun i acc => cursor_advance i + acc) 0 ies.

(** * Properties *)

(** ** Bytes and integers *)

Lemma u8_range (b : byte) : 0 <= u8 b < 256.
Proof.
  unfold u8. pose proof (Byte.to_N_bounded b) as H.
  lia.
Qed.

Lemma u8_to_byte (x : Z) : u8 (to_byte x) = x mod 256.
Proof.
  unfold to_byte, u8.
  assert (Hr : 0 <= x mod 256 < 256) by (apply Z.mod_pos_bound; lia).
  destruct (Byte.of_N (Z.to_N (x mod 256))) as [b|] eqn:E.
  - apply Byte.to_of_N in E. rewrite E. lia.
  - apply Byte.of_N_None_iff in E. lia.
Qed.

Lemma to_byte_u8 (b : byte) : to_byte (u8 b) = b.
Proof.
  unfold to_byte. rewrite Z.mod_small by apply u8_range.
  unfold u8. rewrite N2Z.id, Byte.of_to_N. reflexivity.
Qed.

Lemma u8_inj (a b : byte) : u8 a = u8 b -> a = b.
Proof.
  intros H. rewrite <- (to_byte_u8 a), <- (to_byte_u8 b), H. reflexivity.
Qed.

Lemma len_nil {A : Type} : len (@nil A) = 0.
Proof. reflexivity. Qed.

Lemma len_one {A : Type} (x : A) : len [x] = 1.
Proof. reflexivity. Qed.

Lemma len_cons {A : Type} (x : A) (l : list A) : len (x :: l) = 1 + len l.
Proof. unfold len. cbn [length]. lia. Qed.

Lemma len_app {A : Type} (l1 l2 : list A) : len (l1 ++ l2) = len l1 + len l2.
Proof. unfold len. rewrite length_app. lia. Qed.

Lemma len_nonneg {A : Type} (l : list A) : 0 <= len l.
Proof. unfold len. lia. Qed.

(** An octet or-ed below a value shifted left by eight bits is added to it. *)
Lemma lor_shiftl8 (a v : Z) :
  0 <= a -> 0 <= v < 256 -> Z.lor (Z.shiftl a 8) v = a * 256 + v.
Proof.
  intros Ha Hv.
  rewrite Z.shiftl_mul_pow2 by lia.
  change (2 ^ 8) with 256.
  rewrite <- Z.lxor_lor, <- Z.add_nocarry_lxor; try reflexivity.
  all: apply Z.bits_inj'; intros n Hn;
    rewrite Z.land_spec, Z.bits_0;
    destruct (Z.ltb_spec n 8) as [Hlt|Hge].
  1,3: replace (a * 256) with (a * 2 ^ 8) by reflexivity;
    rewrite Z.mul_pow2_bits_low by lia; reflexivity.
  all: replace (Z.testbit v n) with false;
    [ apply andb_false_r | symmetry ];
    (destruct (Z.eq_dec v 0) as [->|Hnz]; [ apply Z.bits_0 | ]);
    apply Z.bits_above_log2; try lia;
    assert (Z.log2 v < 8) by (apply Z.log2_lt_pow2; lia); lia.
Qed.

Lemma all_below_spec (n : nat) (f : Z -> bool) :
  all_below n f = true -> forall x, 0 <= x < Z.of_nat n -> f x = true.
Proof.
  unfold all_below. rewrite forallb_forall. intros H x Hx.
  apply H. apply in_map_iff. exists (Z.to_nat x). split; [lia|].
  apply in_seq. lia.
Qed.

(** ** Tags *)

Lemma tag_fields_ok_all :
  all_below 4 (fun cls =>
    all_below 2 (fun form =>
      all_below 32 (fun code => tag_fields_ok cls form code))) = true.
Proof. vm_compute. reflexivity. Qed.

(** C8. For every class in [0,3], form in {0,1} and code in [0,31], the tag
    built by [NewTag] is [(class << 6) | (form << 5) | code], and its
    [Class], [Form] and [Code] accessors give back class, form and code. *)
Theorem tag_round_trip (cls form code : Z) :
  0 <= cls <= 3 -> 0 <= form <= 1 -> 0 <= code <= 31 ->
  u8 (NewTag cls form code) = Z.lor (Z.lor (Z.shiftl cls 6) (Z.shiftl form 5)) code
  /\ Class (NewTag cls form code) = cls
  /\ Form (NewTag cls form code) = form
  /\ Code (NewTag cls form code) = code.
Proof.
  intros Hc Hf Hd.
  pose proof (all_below_spec _ _ tag_fields_ok_all cls ltac:(lia)) as H1.
  pose proof (all_below_spec _ _ H1 form ltac:(lia)) as H2.
  pose proof (all_below_spec _ _ H2 code ltac:(lia)) as H3.
  unfold tag_fields_ok in H3.
  repeat (apply andb_prop in H3; destruct H3 as [H3 ?]).
  repeat split; apply Z.eqb_eq; assumption.
Qed.

Lemma tag_round_trip_witness :
  u8 (NewTag 2 1 11) = Z.lor (Z.lor (Z.shiftl 2 6) (Z.shiftl 1 5)) 11
  /\ Class (NewTag 2 1 11) = 2
  /\ Form (NewTag 2 1 11) = 1
  /\ Code (NewTag 2 1 11) = 11.
Proof. apply (tag_round_trip 2 1 11); lia. Defined.

(** ** The length codec *)

Lemma be_value_snoc (l : list byte) (x : byte) :
  be_value (l ++ [x]) = be_value l * 256 + u8 x.
Proof. unfold be_value. rewrite fold_left_app. reflexivity. Qed.

Lemma be_value_bounds (l : list byte) : 0 <= be_value l < 256 ^ len l.
Proof.
  induction l as [|x l IH] using rev_ind.
  - cbn. lia.
  - rewrite be_value_snoc, len_app, len_one.
    pose proof (u8_range x). pose proof (len_nonneg l).
    rewrite Z.pow_add_r by lia. change (256 ^ 1) with 256. nia.
Qed.

Lemma be_value_app (l1 l2 : list byte) :
  be_value (l1 ++ l2) = be_value l1 * 256 ^ len l2 + be_value l2.
Proof.
  induction l2 as [|x l2 IH] using rev_ind.
  - rewrite app_nil_r, len_nil. cbn. lia.
  - rewrite app_assoc, !be_value_snoc, IH, len_app, len_one.
    pose proof (len_nonneg l2).
    rewrite Z.pow_add_r by lia. change (256 ^ 1) with 256. ring.
Qed.

(** A sequence with a non-zero first octet denotes at least
    [256 ^ (length - 1)]. *)
Lemma be_value_lower (l : list byte) :
  no_leading_zero l -> 256 ^ (len l - 1) <= be_value l.
Proof.
  destruct l as [|x l]; [intros []|]. cbn [no_leading_zero]. intros Hx.
  change (x :: l) with ([x] ++ l).
  rewrite be_value_app, len_app, len_one.
  replace (1 + len l - 1) with (len l) by lia.
  pose proof (be_value_bounds l). pose proof (u8_range x).
  assert (0 < 256 ^ len l) by (apply Z.pow_pos_nonneg; [lia|apply len_nonneg]).
  replace (be_value [x]) with (u8 x) by (cbn; lia). nia.
Qed.

(** The decoder's [uint32] accumulation computes the big-endian value as
    long as at most four octets are read. *)
Lemma accumulate_be_value (l : list byte) :
  len l <= 4 -> accumulate l = be_value l.
Proof.
  induction l as [|x l IH] using rev_ind; [reflexivity|].
  rewrite len_app, len_one. intros Hl.
  rewrite be_value_snoc. unfold accumulate. rewrite fold_left_app. cbn [fold_left].
  fold (accumulate l). rewrite IH by lia.
  pose proof (be_value_bounds l) as Hb. pose proof (u8_range x).
  assert (256 ^ len l <= 256 ^ 3) by (apply Z.pow_le_mono_r; lia).
  unfold uint32. rewrite Z.shiftl_mul_pow2 by lia.
  rewrite Z.mod_small by lia.
  rewrite <- Z.shiftl_mul_pow2 by lia.
  apply lor_shiftl8; lia.
Qed.

Lemma valBytes_loop_acc (fuel : nat) (t : Z) (acc : list byte) :
  valBytes_loop fuel t acc = valBytes_loop fuel t [] ++ acc.
Proof.
  revert t acc. induction fuel as [|fuel IH]; intros t acc; cbn [valBytes_loop].
  - reflexivity.
  - destruct (0 <? t); [|reflexivity].
    rewrite (IH _ (_ :: acc)), (IH _ [_]), <- app_assoc. reflexivity.
Qed.

Lemma low_octet (t : Z) : 0 <= t -> u8 (to_byte (Z.land t 255)) = t mod 256.
Proof.
  intros Ht. rewrite u8_to_byte.
  change 255 with (Z.ones 8). rewrite Z.land_ones by lia.
  change (2 ^ 8) with 256. apply Z.mod_mod. lia.
Qed.

Lemma no_leading_zero_app (l1 l2 : list byte) :
  no_leading_zero l1 -> no_leading_zero (l1 ++ l2).
Proof. destruct l1; [intros []|exact (fun H => H)]. Qed.

(** What the extraction loop builds from a value that fits its fuel: the
    octets of the value, most significant first, none of them a leading
    zero. *)
Lemma valBytes_loop_spec (fuel : nat) (t : Z) :
  0 <= t < 256 ^ Z.of_nat fuel ->
  be_value (valBytes_loop fuel t []) = t
  /\ len (valBytes_loop fuel t []) <= Z.of_nat fuel
  /\ (t = 0 -> valBytes_loop fuel t [] = [])
  /\ (0 < t -> no_leading_zero (valBytes_loop fuel t [])).
Proof.
  revert t. induction fuel as [|fuel IH]; intros t Ht.
  - cbn in Ht. assert (t = 0) by lia. subst. cbn. repeat split; try lia.
  - cbn [valBytes_loop]. destruct (Z.ltb_spec 0 t) as [Hpos|Hz].
    + rewrite valBytes_loop_acc, Z.shiftr_div_pow2 by lia.
      change (2 ^ 8) with 256.
      assert (Hq : 0 <= t / 256 < 256 ^ Z.of_nat fuel).
      { rewrite Nat2Z.inj_succ, Z.pow_succ_r in Ht by lia.
        split; [apply Z.div_pos; lia|apply Z.div_lt_upper_bound; lia]. }
      destruct (IH _ Hq) as (Hv & Hl & Hnil & Hnz).
      rewrite be_value_snoc, Hv, low_octet, len_app, len_one by lia.
      repeat split; try lia.
      * pose proof (Z.div_mod t 256). lia.
      * intros _. destruct (Z.eq_dec (t / 256) 0) as [E|E].
        -- rewrite (Hnil E). cbn [app no_leading_zero].
           rewrite low_octet by lia. pose proof (Z.div_mod t 256). lia.
        -- apply no_leading_zero_app, Hnz. lia.
    + assert (t = 0) by lia. subst. cbn. repeat split; lia.
Qed.

(** Fuel beyond the width of the value changes nothing: the loop has
    left through its exit test. *)
Lemma valBytes_loop_done (fuel extra : nat) (t : Z) (acc : list byte) :
  0 <= t < 256 ^ Z.of_nat fuel ->
  valBytes_loop (fuel + extra) t acc = valBytes_loop fuel t acc.
Proof.
  revert t acc. induction fuel as [|fuel IH]; intros t acc Ht.
  - cbn in Ht. assert (t = 0) by lia. subst. destruct extra; reflexivity.
  - cbn [Nat.add valBytes_loop]. destruct (Z.ltb_spec 0 t); [|reflexivity].
    apply IH. rewrite Z.shiftr_div_pow2 by lia. change (2 ^ 8) with 256.
    rewrite Nat2Z.inj_succ, Z.pow_succ_r in Ht by lia.
    split; [apply Z.div_pos; lia|apply Z.div_lt_upper_bound; lia].
Qed.

Lemma uint32_range (x : Z) : 0 <= uint32 x < 256 ^ Z.of_nat 4.
Proof. unfold uint32. change (256 ^ Z.of_nat 4) with (2 ^ 32). apply Z.mod_pos_bound. lia. Qed.

(** The four rounds given to the loop in [MarshalAsn1ElementLength] are
    all a [uint32] can take. *)
Lemma Marshal_fuel_enough (n : Z) (extra : nat) :
  valBytes_loop (4 + extra) (uint32 n) [] = valBytes_loop 4 (uint32 n) [].
Proof. apply valBytes_loop_done, uint32_range. Qed.

(** The long form, for a length that fits a [uint32]. *)
Lemma Marshal_long_form (n : Z) :
  127 < n < 2 ^ 32 ->
  exists octets,
    MarshalAsn1ElementLength n = to_byte (Z.lor 128 (len octets)) :: octets
    /\ u8 (to_byte (Z.lor 128 (len octets))) = 128 + len octets
    /\ Z.land (128 + len octets) 127 = len octets
    /\ be_value octets = n
    /\ no_leading_zero octets
    /\ 1 <= len octets <= 4.
Proof.
  intros Hn. unfold MarshalAsn1ElementLength.
  destruct (Z.leb_spec n 127); [lia|].
  assert (Hu : uint32 n = n) by (unfold uint32; apply Z.mod_small; lia).
  rewrite Hu. cbv zeta.
  destruct (valBytes_loop_spec 4 n) as (Hv & Hl & _ & Hnz).
  { change (256 ^ Z.of_nat 4) with (2 ^ 32). lia. }
  set (octets := valBytes_loop 4 n []) in *.
  specialize (Hnz ltac:(lia)).
  assert (Hk : 1 <= len octets <= 4).
  { split; [|exact Hl]. destruct octets; [destruct Hnz|]. rewrite len_cons.
    pose proof (len_nonneg octets). lia. }
  exists octets.
  assert (Hcase : len octets = 1 \/ len octets = 2 \/ len octets = 3 \/ len octets = 4) by lia.
  repeat split; try assumption; try lia;
    destruct Hcase as [E|[E|[E|E]]]; rewrite E; reflexivity.
Qed.

Lemma index_0 (x : byte) (b : list byte) : index (x :: b) 0 = Ret x.
Proof.
  unfold index. rewrite len_cons. pose proof (len_nonneg b).
  destruct (Z.ltb_spec 0 (1 + len b)); [reflexivity|lia].
Qed.

Lemma index_1 (t x : byte) (b : list byte) : index (t :: x :: b) 1 = Ret x.
Proof.
  unfold index. rewrite !len_cons. pose proof (len_nonneg b).
  destruct (Z.ltb_spec 1 (1 + (1 + len b))); [reflexivity|lia].
Qed.

Lemma index_1_short (b : list byte) : len b < 2 -> index b 1 = Panic.
Proof.
  intros H. unfold index. destruct (Z.ltb_spec 1 (len b)); [lia|].
  rewrite andb_false_r. reflexivity.
Qed.

Lemma len_ge_2 {A : Type} (b : list A) :
  2 <= len b -> exists t x rest, b = t :: x :: rest.
Proof.
  destruct b as [|t [|x rest]]; cbn; try lia. intros _. eauto.
Qed.

(** On a buffer that holds the tag and the first length byte, the decoder
    of the IE codec computes what util.go's decoder computes. *)
Lemma decoders_agree (b : list byte) :
  2 <= len b ->
  UnmarshalAsn1ElementLength b =
  Ret (fst (fst (Util.UnmarshalAsn1ElementLength b)),
       snd (Util.UnmarshalAsn1ElementLength b)).
Proof.
  intros Hb. destruct (len_ge_2 b Hb) as (t & x & rest & ->).
  unfold UnmarshalAsn1ElementLength, Util.UnmarshalAsn1ElementLength.
  rewrite index_1. cbn [bind nth].
  destruct (Z.ltb_spec (len (t :: x :: rest)) 2); [lia|].
  destruct (u8 x <=? 127); [reflexivity|].
  destruct (Z.land (u8 x) 127 =? 0); [reflexivity|].
  destruct (len (t :: x :: rest) <? 2 + Z.land (u8 x) 127); reflexivity.
Qed.

Lemma decode_short_form (t x : byte) (rest : list byte) :
  u8 x <= 127 ->
  Util.UnmarshalAsn1ElementLength (t :: x :: rest) = (u8 x, 1, None).
Proof.
  intros Hx. unfold Util.UnmarshalAsn1ElementLength.
  rewrite !len_cons. pose proof (len_nonneg rest).
  destruct (Z.ltb_spec (1 + (1 + len rest)) 2); [lia|]. cbn [nth].
  destruct (Z.leb_spec (u8 x) 127); [reflexivity|lia].
Qed.

Lemma decode_long_form (t h : byte) (octets rest : list byte) :
  u8 h = 128 + len octets -> Z.land (128 + len octets) 127 = len octets ->
  1 <= len octets <= 4 ->
  Util.UnmarshalAsn1ElementLength (t :: h :: octets ++ rest)
  = (be_value octets, 1 + len octets, None).
Proof.
  intros Hh Hland Hk. unfold Util.UnmarshalAsn1ElementLength.
  rewrite !len_cons, len_app. pose proof (len_nonneg rest).
  destruct (Z.ltb_spec (1 + (1 + (len octets + len rest))) 2); [lia|]. cbn [nth].
  rewrite Hh, Hland.
  destruct (Z.leb_spec (128 + len octets) 127); [lia|].
  destruct (Z.eqb_spec (len octets) 0); [lia|].
  destruct (Z.ltb_spec (1 + (1 + (len octets + len rest))) (2 + len octets)); [lia|].
  cbn [skipn]. unfold len at 1. rewrite Nat2Z.id, firstn_app, Nat.sub_diag.
  cbn [firstn]. rewrite app_nil_r, firstn_all, accumulate_be_value by lia.
  reflexivity.
Qed.

(** C1. For every [n] in [0, 2^32-1] and every tag byte, decoding the tag
    byte followed by [MarshalAsn1ElementLength n] returns [n] and the
    number of bytes of the length field with no error (with the decoder of
    util.go and with the decoder the IE codec calls); the encoding is one
    byte for [n <= 127], otherwise the header [0x80 | k] followed by
    exactly [k] big-endian octets without a leading zero; and no sequence
    of octets that denotes [n] is shorter than the ones emitted. *)
Theorem length_round_trip_minimal (n : Z) (tag : byte) :
  0 <= n < 2 ^ 32 ->
  Util.UnmarshalAsn1ElementLength (tag :: MarshalAsn1ElementLength n)
  = (n, len (MarshalAsn1ElementLength n), None)
  /\ UnmarshalAsn1ElementLength (tag :: MarshalAsn1ElementLength n) = Ret (n, None)
  /\ (n <= 127 -> exists x, MarshalAsn1ElementLength n = [x] /\ u8 x = n)
  /\ (127 < n ->
      exists octets,
        MarshalAsn1ElementLength n = to_byte (Z.lor 128 (len octets)) :: octets
        /\ be_value octets = n
        /\ no_leading_zero octets
        /\ 1 <= len octets <= 4)
  /\ (forall octets', be_value octets' = n ->
        len (MarshalAsn1ElementLength n) <= 1 + len octets').
Proof.
  intros Hn.
  assert (Hutil :
    Util.UnmarshalAsn1ElementLength (tag :: MarshalAsn1ElementLength n)
    = (n, len (MarshalAsn1ElementLength n), None)
    /\ (n <= 127 -> exists x, MarshalAsn1ElementLength n = [x] /\ u8 x = n)
    /\ (127 < n ->
        exists octets,
          MarshalAsn1ElementLength n = to_byte (Z.lor 128 (len octets)) :: octets
          /\ be_value octets = n
          /\ no_leading_zero octets
          /\ 1 <= len octets <= 4)
    /\ (forall octets', be_value octets' = n ->
          len (MarshalAsn1ElementLength n) <= 1 + len octets')).
  { destruct (Z.le_gt_cases n 127) as [Hs|Hl].
    - assert (E : MarshalAsn1ElementLength n = [to_byte n]).
      { unfold MarshalAsn1ElementLength. destruct (Z.leb_spec n 127); [reflexivity|lia]. }
      assert (Ev : u8 (to_byte n) = n) by (rewrite u8_to_byte; apply Z.mod_small; lia).
      rewrite E. repeat split.
      + rewrite decode_short_form by lia. rewrite Ev. reflexivity.
      + intros _. eauto.
      + lia.
      + intros octets' _. rewrite len_one. pose proof (len_nonneg octets'). lia.
    - destruct (Marshal_long_form n ltac:(lia)) as (octets & E & Hh & Hland & Hv & Hnz & Hk).
      rewrite E. repeat split.
      + rewrite <- (app_nil_r octets) at 2.
        rewrite decode_long_form, Hv, len_cons by assumption. reflexivity.
      + lia.
      + intros _. exists octets. repeat split; try assumption; lia.
      + intros octets' Hv'. rewrite len_cons.
        pose proof (be_value_lower octets Hnz) as Hlo.
        pose proof (be_value_bounds octets') as Hhi.
        rewrite Hv in Hlo. rewrite Hv' in Hhi.
        destruct (Z.le_gt_cases (len octets) (len octets')) as [|Hgt]; [lia|].
        assert (256 ^ len octets' <= 256 ^ (len octets - 1))
          by (apply Z.pow_le_mono_r; pose proof (len_nonneg octets'); lia).
        lia. }
  destruct Hutil as (Hdec & Hshort & Hlong & Hmin).
  repeat split; try assumption.
  rewrite decoders_agree, Hdec; [reflexivity|].
  rewrite len_cons.
  destruct (Z.le_gt_cases n 127) as [Hs|Hl].
  - destruct (Hshort Hs) as (x & -> & _). rewrite len_one. lia.
  - destruct (Hlong Hl) as (octets & -> & _ & _ & Hk). rewrite len_cons. lia.
Qed.

Lemma length_round_trip_minimal_witness :
  Util.UnmarshalAsn1ElementLength (Byte.x04 :: MarshalAsn1ElementLength 300)
  = (300, len (MarshalAsn1ElementLength 300), None)
  /\ UnmarshalAsn1ElementLength (Byte.x04 :: MarshalAsn1ElementLength 300) = Ret (300, None)
  /\ (300 <= 127 -> exists x, MarshalAsn1ElementLength 300 = [x] /\ u8 x = 300)
  /\ (127 < 300 ->
      exists octets,
        MarshalAsn1ElementLength 300 = to_byte (Z.lor 128 (len octets)) :: octets
        /\ be_value octets = 300
        /\ no_leading_zero octets
        /\ 1 <= len octets <= 4)
  /\ (forall octets', be_value octets' = 300 ->
        len (MarshalAsn1ElementLength 300) <= 1 + len octets').
Proof. apply (length_round_trip_minimal 300 Byte.x04). lia. Defined.

(** The worked lengths of the design document. *)
Example length_5 : MarshalAsn1ElementLength 5 = [Byte.x05].
Proof. reflexivity. Qed.

Example length_128 : MarshalAsn1ElementLength 128 = [Byte.x81; Byte.x80].
Proof. reflexivity. Qed.

Example length_300 : MarshalAsn1ElementLength 300 = [Byte.x82; Byte.x01; Byte.x2c].
Proof. reflexivity. Qed.

Lemma lor_range (a b n : Z) :
  0 <= n -> 0 <= a < 2 ^ n -> 0 <= b < 2 ^ n -> 0 <= Z.lor a b < 2 ^ n.
Proof.
  intros Hn Ha Hb. split; [apply Z.lor_nonneg; lia|].
  destruct (Z.eq_dec (Z.lor a b) 0) as [->|Hnz]; [lia|].
  assert (0 <= Z.lor a b) by (apply Z.lor_nonneg; lia).
  apply Z.log2_lt_pow2; [lia|].
  rewrite Z.log2_lor by lia.
  assert (Hlog : forall c, 0 <= c < 2 ^ n -> Z.log2 c < n \/ c = 0).
  { intros c Hc. destruct (Z.eq_dec c 0); [now right|left].
    apply Z.log2_lt_pow2; lia. }
  assert (Hab : a <> 0 \/ b <> 0).
  { destruct (Z.eq_dec a 0) as [Ea|]; [|now left].
    destruct (Z.eq_dec b 0) as [Eb|]; [|now right].
    exfalso. apply Hnz. rewrite Ea, Eb. reflexivity. }
  assert (0 < n).
  { destruct (Z.eq_dec n 0) as [En|]; [|lia]. rewrite En in Ha, Hb.
    change (2 ^ 0) with 1 in Ha, Hb. lia. }
  destruct (Hlog a Ha) as [|Ea]; destruct (Hlog b Hb) as [|Eb];
    try rewrite Ea; try rewrite Eb; cbn [Z.log2]; lia.
Qed.

Lemma accumulate_range (l : list byte) : 0 <= accumulate l < 2 ^ 32.
Proof.
  induction l as [|x l IH] using rev_ind; [cbn; lia|].
  unfold accumulate. rewrite fold_left_app. cbn [fold_left]. fold (accumulate l).
  pose proof (u8_range x).
  apply lor_range; [lia| |lia].
  unfold uint32. apply Z.mod_pos_bound. lia.
Qed.

(** A length the decoder returns without an error is a [uint32]. *)
Lemma decoded_length_range (b : list byte) (n : Z) :
  UnmarshalAsn1ElementLength b = Ret (n, None) -> 0 <= n < 2 ^ 32.
Proof.
  unfold UnmarshalAsn1ElementLength. destruct (index b 1) as [x| |]; cbn [bind]; try discriminate.
  pose proof (u8_range x).
  destruct (Z.leb_spec (u8 x) 127).
  - intros [= <-]. lia.
  - destruct (Z.land (u8 x) 127 =? 0); [discriminate|].
    destruct (len b <? 2 + Z.land (u8 x) 127); [discriminate|].
    intros [= <-]. apply accumulate_range.
Qed.

(** With the first length byte in the buffer the decoder does not panic. *)
Lemma decoder_returns (b : list byte) :
  2 <= len b -> exists n e, UnmarshalAsn1ElementLength b = Ret (n, e).
Proof. intros Hb. rewrite decoders_agree by assumption. eauto. Qed.

Lemma slice_ok (b : list byte) (lo hi : Z) :
  0 <= lo <= hi -> hi <= len b ->
  slice b lo hi = Ret (firstn (Z.to_nat (hi - lo)) (skipn (Z.to_nat lo) b)).
Proof.
  intros H1 H2. unfold slice.
  destruct (Z.leb_spec 0 lo); [|lia]. destruct (Z.leb_spec lo hi); [|lia].
  destruct (Z.leb_spec hi (len b)); [reflexivity|lia].
Qed.

Lemma slice_from_ok (b : list byte) (lo : Z) :
  0 <= lo <= len b -> slice_from b lo = Ret (skipn (Z.to_nat lo) b).
Proof.
  intros H. unfold slice_from. rewrite slice_ok by lia.
  rewrite firstn_all2; [reflexivity|]. rewrite length_skipn. unfold len. lia.
Qed.

Lemma slice_from_panic (b : list byte) (lo : Z) :
  len b < lo -> slice_from b lo = Panic.
Proof.
  intros H. unfold slice_from, slice.
  destruct (Z.leb_spec lo (len b)); [lia|]. rewrite andb_false_r. reflexivity.
Qed.

(** ** The flat parser *)

Lemma len_ge_3 {A : Type} (b : list A) :
  3 <= len b -> exists t x y rest, b = t :: x :: y :: rest.
Proof.
  destruct b as [|t [|x [|y rest]]]; cbn; try lia. intros _. eauto.
Qed.

(** [UnmarshalBinary], case by case. *)
Lemma UnmarshalBinary_short (i : IE) (b : list byte) :
  len b < 3 -> UnmarshalBinary i b = Ret (i, Some ErrUnexpectedEOF).
Proof.
  intros H. unfold UnmarshalBinary. destruct (Z.ltb_spec (len b) 3); [reflexivity|lia].
Qed.

Lemma UnmarshalBinary_decoded (i : IE) (b : list byte) (n : Z) (e : option error) :
  3 <= len b -> UnmarshalAsn1ElementLength b = Ret (n, e) ->
  UnmarshalBinary i b =
  match e with
  | Some err => Ret (mkIE (nth 0 b Byte.x00) n (Value i) (iIE i), Some err)
  | None =>
      if len b <? 2 + n
      then Ret (mkIE (nth 0 b Byte.x00) n (Value i) (iIE i), Some ErrUnexpectedEOF)
      else v <- slice b 2 (2 + n) ;;
           Ret (mkIE (nth 0 b Byte.x00) n v (iIE i), None)
  end.
Proof.
  intros Hb Hdec. destruct (len_ge_3 b Hb) as (t & x & y & rest & ->).
  unfold UnmarshalBinary. rewrite Hdec, index_0.
  destruct (Z.ltb_spec (len (t :: x :: y :: rest)) 3); [lia|].
  cbn [bind fst snd nth]. destruct e; reflexivity.
Qed.

(** [UnmarshalBinary] returns in every case, and leaves the children of
    its receiver alone. *)
Lemma UnmarshalBinary_returns (i : IE) (b : list byte) :
  exists i' e, UnmarshalBinary i b = Ret (i', e) /\ iIE i' = iIE i.
Proof.
  destruct (Z.lt_ge_cases (len b) 3) as [Hs|Hb].
  - rewrite UnmarshalBinary_short by assumption. eauto.
  - destruct (decoder_returns b ltac:(lia)) as (n & e & Hdec).
    rewrite (UnmarshalBinary_decoded i b n e Hb Hdec).
    destruct e as [err|]; [eauto|].
    pose proof (decoded_length_range b n Hdec).
    destruct (Z.ltb_spec (len b) (2 + n)); [eauto|].
    rewrite slice_ok by lia. cbn [bind]. eauto.
Qed.

(** C6, as the code has it.  [UnmarshalBinary] fails with
    [io.ErrUnexpectedEOF] (the TruncatedBuffer kind) when the buffer has
    fewer than three bytes; with at least three bytes, an error of the
    length codec is handed on; when the codec returns a length, the call
    fails with [io.ErrUnexpectedEOF] if the buffer has fewer than two
    plus that length bytes, and otherwise sets the tag from [b[0]], the
    length from the codec and the value to [b[2 : 2+length]].  It returns
    in every case, and never touches the children of its receiver. *)
Theorem flat_parse_strict (i : IE) (b : list byte) :
  (len b < 3 -> UnmarshalBinary i b = Ret (i, Some ErrUnexpectedEOF))
  /\ (forall n, 3 <= len b -> UnmarshalAsn1ElementLength b = Ret (n, None) ->
        len b < 2 + n ->
        exists i', UnmarshalBinary i b = Ret (i', Some ErrUnexpectedEOF))
  /\ (forall n, 3 <= len b -> UnmarshalAsn1ElementLength b = Ret (n, None) ->
        2 + n <= len b ->
        exists v,
          slice b 2 (2 + n) = Ret v
          /\ UnmarshalBinary i b = Ret (mkIE (nth 0 b Byte.x00) n v (iIE i), None))
  /\ (forall n err, 3 <= len b -> UnmarshalAsn1ElementLength b = Ret (n, Some err) ->
        exists i', UnmarshalBinary i b = Ret (i', Some err))
  /\ (exists i' e, UnmarshalBinary i b = Ret (i', e) /\ iIE i' = iIE i)
  /\ kind_of ErrUnexpectedEOF = TruncatedBuffer.
Proof.
  split; [apply UnmarshalBinary_short|].
  split; [|split; [|split; [|split; [apply UnmarshalBinary_returns|reflexivity]]]].
  - intros n Hb Hdec Hn. rewrite (UnmarshalBinary_decoded i b n None Hb Hdec).
    destruct (Z.ltb_spec (len b) (2 + n)); [eauto|lia].
  - intros n Hb Hdec Hn. rewrite (UnmarshalBinary_decoded i b n None Hb Hdec).
    pose proof (decoded_length_range b n Hdec).
    destruct (Z.ltb_spec (len b) (2 + n)); [lia|].
    rewrite slice_ok by lia. eexists. split; reflexivity.
  - intros n err Hb Hdec. rewrite (UnmarshalBinary_decoded i b n _ Hb Hdec). eauto.
Qed.

(** C6 as stated splits every call in two, a TruncatedBuffer failure or a
    success that sets the value.  On [04 80 aa] the call is neither: the
    buffer has three bytes, the codec rejects the header, and
    [UnmarshalBinary] returns that error, of kind UnsupportedEncoding,
    with the length at -1 and no value set. *)
Lemma flat_parse_third_outcome :
  ~ (forall (i : IE) (b : list byte),
       (exists i' e, UnmarshalBinary i b = Ret (i', Some e)
                     /\ kind_of e = TruncatedBuffer)
       \/ (exists i', UnmarshalBinary i b = Ret (i', None)))
  /\ UnmarshalBinary zeroIE [Byte.x04; Byte.x80; Byte.xaa]
     = Ret (mkIE Byte.x04 (-1) [] [], Some ErrIndefinite)
  /\ kind_of ErrIndefinite = UnsupportedEncoding.
Proof.
  split; [|split; reflexivity].
  intros H.
  destruct (H zeroIE [Byte.x04; Byte.x80; Byte.xaa])
    as [(i' & e & Hu & Hk)|(i' & Hu)]; vm_compute in Hu.
  - injection Hu as _ <-. vm_compute in Hk. discriminate Hk.
  - discriminate Hu.
Qed.

(** The three cases of [flat_parse_strict] on concrete buffers: two bytes;
    a declared length of five with one value byte; a complete element. *)
Lemma flat_parse_strict_witness :
  UnmarshalBinary zeroIE [Byte.x04; Byte.x00] = Ret (zeroIE, Some ErrUnexpectedEOF)
  /\ (exists i', UnmarshalBinary zeroIE [Byte.x04; Byte.x05; Byte.xaa]
                 = Ret (i', Some ErrUnexpectedEOF))
  /\ (exists v, slice [Byte.x04; Byte.x02; Byte.xaa; Byte.xbb] 2 (2 + 2) = Ret v
        /\ UnmarshalBinary zeroIE [Byte.x04; Byte.x02; Byte.xaa; Byte.xbb]
           = Ret (mkIE Byte.x04 2 v [], None)).
Proof.
  split; [|split].
  - apply (flat_parse_strict zeroIE [Byte.x04; Byte.x00]). cbn. lia.
  - apply (proj1 (proj2 (flat_parse_strict zeroIE [Byte.x04; Byte.x05; Byte.xaa])) 5);
      [cbn; lia|reflexivity|cbn; lia].
  - apply (proj1 (proj2 (proj2
      (flat_parse_strict zeroIE [Byte.x04; Byte.x02; Byte.xaa; Byte.xbb]))) 2);
      [cbn; lia|reflexivity|cbn; lia].
Defined.

Lemma ParseIE_unfold (b : list byte) (i : IE) (e : option error) :
  UnmarshalBinary zeroIE b = Ret (i, e) ->
  ParseIE b = Ret (match e with Some err => (None, Some err) | None => (Some i, None) end).
Proof. intros H. unfold ParseIE. rewrite H. cbn [bind snd fst]. destruct e; reflexivity. Qed.

(** ** The indefinite-length header *)

Lemma decode_indefinite (b : list byte) :
  2 <= len b -> nth 1 b Byte.x00 = Byte.x80 ->
  Util.UnmarshalAsn1ElementLength b = (-1, 0, Some ErrIndefinite).
Proof.
  intros Hb H1. unfold Util.UnmarshalAsn1ElementLength.
  destruct (Z.ltb_spec (len b) 2); [lia|]. rewrite H1. reflexivity.
Qed.

(** C9, as the code has it.  For every buffer of at least two bytes whose
    length byte is exactly [0x80], the length decoder (of util.go, and the
    one the IE codec calls) fails with the indefinite-length error, of
    kind UnsupportedEncoding, whatever follows the header.  The flat
    parser hands that error to its caller when the buffer has at least
    three bytes; on a buffer of exactly two bytes it fails earlier, with
    [io.ErrUnexpectedEOF]. *)
Theorem indefinite_length_rejected (i : IE) (b : list byte) :
  2 <= len b -> nth 1 b Byte.x00 = Byte.x80 ->
  Util.UnmarshalAsn1ElementLength b = (-1, 0, Some ErrIndefinite)
  /\ UnmarshalAsn1ElementLength b = Ret (-1, Some ErrIndefinite)
  /\ kind_of ErrIndefinite = UnsupportedEncoding
  /\ (3 <= len b ->
      (exists i', UnmarshalBinary i b = Ret (i', Some ErrIndefinite))
      /\ ParseIE b = Ret (None, Some ErrIndefinite)
      /\ ParseMultiIEs b = Ret ([], Some ErrIndefinite))
  /\ (len b = 2 -> ParseIE b = Ret (None, Some ErrUnexpectedEOF)).
Proof.
  intros Hb H1.
  pose proof (decode_indefinite b Hb H1) as Hu.
  assert (Hd : UnmarshalAsn1ElementLength b = Ret (-1, Some ErrIndefinite))
    by (rewrite decoders_agree, Hu by assumption; reflexivity).
  repeat split; try assumption.
  - rewrite (UnmarshalBinary_decoded i b _ _ H Hd). eauto.
  - erewrite ParseIE_unfold by (apply (UnmarshalBinary_decoded zeroIE b _ _ H Hd)).
    reflexivity.
  - unfold ParseMultiIEs. cbn [ParseMultiIEs_loop].
    destruct (Z.eqb_spec (len b) 0); [lia|].
    erewrite ParseIE_unfold by (apply (UnmarshalBinary_decoded zeroIE b _ _ H Hd)).
    reflexivity.
  - intros H2. erewrite ParseIE_unfold by (apply UnmarshalBinary_short; lia).
    reflexivity.
Qed.

Lemma indefinite_length_rejected_witness :
  Util.UnmarshalAsn1ElementLength [Byte.x04; Byte.x80; Byte.xaa] = (-1, 0, Some ErrIndefinite)
  /\ UnmarshalAsn1ElementLength [Byte.x04; Byte.x80; Byte.xaa] = Ret (-1, Some ErrIndefinite)
  /\ kind_of ErrIndefinite = UnsupportedEncoding
  /\ (3 <= len [Byte.x04; Byte.x80; Byte.xaa] ->
      (exists i', UnmarshalBinary zeroIE [Byte.x04; Byte.x80; Byte.xaa]
                  = Ret (i', Some ErrIndefinite))
      /\ ParseIE [Byte.x04; Byte.x80; Byte.xaa] = Ret (None, Some ErrIndefinite)
      /\ ParseMultiIEs [Byte.x04; Byte.x80; Byte.xaa] = Ret ([], Some ErrIndefinite))
  /\ (len [Byte.x04; Byte.x80; Byte.xaa] = 2 ->
      ParseIE [Byte.x04; Byte.x80; Byte.xaa] = Ret (None, Some ErrUnexpectedEOF)).
Proof.
  apply (indefinite_length_rejected zeroIE [Byte.x04; Byte.x80; Byte.xaa]);
    [cbn; lia|reflexivity].
Defined.

(** C9 as stated fails on the two-byte buffer [04 80]: the decoder rejects
    it as indefinite, but the flat parser never reaches the decoder and
    reports a truncated buffer. *)
Lemma indefinite_length_two_bytes :
  ~ (forall b : list byte,
       2 <= len b -> nth 1 b Byte.x00 = Byte.x80 ->
       snd (Util.UnmarshalAsn1ElementLength b) = Some ErrIndefinite
       /\ ParseIE b = Ret (None, Some ErrIndefinite)).
Proof.
  intros H.
  destruct (H [Byte.x04; Byte.x80] ltac:(cbn; lia) eq_refl) as [_ Hp].
  vm_compute in Hp. discriminate Hp.
Qed.

(** ** Serialisation *)

Lemma valBytes_loop_length (fuel : nat) (t : Z) (acc : list byte) :
  (length (valBytes_loop fuel t acc) <= fuel + length acc)%nat.
Proof.
  revert t acc. induction fuel as [|fuel IH]; intros t acc; cbn [valBytes_loop]; [lia|].
  destruct (0 <? t); [|lia].
  etransitivity; [apply IH|]. cbn [length]. lia.
Qed.

(** The length header is never empty, has at most five bytes, and is the
    single byte [byte(n)] for [n <= 127]. *)
Lemma Marshal_shape (n : Z) :
  exists h rest,
    MarshalAsn1ElementLength n = h :: rest
    /\ (length rest <= 4)%nat
    /\ (n <= 127 -> h = to_byte n /\ rest = []).
Proof.
  unfold MarshalAsn1ElementLength. destruct (Z.leb_spec n 127).
  - exists (to_byte n), []. cbn [length]. repeat split; lia.
  - eexists _, _. split; [reflexivity|]. split; [|lia].
    pose proof (valBytes_loop_length 4 (uint32 n) []) as H'. cbn [length] in H'. lia.
Qed.

Lemma MarshalLen_NewIE (tag : Tag) (v : list byte) :
  MarshalLen (NewIE tag v) = 1 + len (MarshalAsn1ElementLength (len v)) + len v.
Proof. reflexivity. Qed.

Lemma copy_into_cons (x : byte) (b : list byte) (off room : nat) (src : list byte) :
  copy_into (x :: b) (S off) room src = x :: copy_into b off room src.
Proof. reflexivity. Qed.

Lemma copy_into_0 (b : list byte) (room : nat) (src : list byte) :
  (length src <= room)%nat ->
  copy_into b 0 room src = src ++ skipn (length src) b.
Proof.
  intros H. unfold copy_into. rewrite Nat.min_r by assumption.
  cbn [firstn app Nat.add]. rewrite firstn_all. reflexivity.
Qed.

Lemma slice_length (b d : list byte) (lo hi : Z) :
  slice b lo hi = Ret d -> length d = Z.to_nat (hi - lo).
Proof.
  unfold slice.
  destruct (Z.leb_spec 0 lo); [|discriminate].
  destruct (Z.leb_spec lo hi); [|discriminate].
  destruct (Z.leb_spec hi (len b)); [|discriminate].
  intros [= <-]. rewrite length_firstn, length_skipn. unfold len in *. lia.
Qed.

(** What [MarshalTo] leaves in the buffer for an element whose length is
    that of its value: the tag, the first byte of the length header, and
    the value from offset 2 on; the bytes behind the value are untouched. *)
Lemma MarshalTo_writes (tag : Tag) (v b : list byte) :
  MarshalLen (NewIE tag v) <= len b ->
  MarshalTo (NewIE tag v) b =
  Ret (tag :: hd Byte.x00 (MarshalAsn1ElementLength (len v)) :: v
           ++ skipn (2 + length v) b, None).
Proof.
  intros Hb. rewrite MarshalLen_NewIE in Hb.
  destruct (Marshal_shape (len v)) as (h & rest & E & Hrest & Hshort).
  unfold MarshalTo. rewrite MarshalLen_NewIE.
  cbn [Length Value iTag NewIE SetLength set_Length].
  rewrite E in *. cbn [hd]. rewrite len_cons in *.
  pose proof (len_nonneg rest). pose proof (len_nonneg v).
  destruct (Z.ltb_spec (len b) 2); [lia|].
  destruct (Z.ltb_spec (len b) (1 + (1 + len rest) + len v)); [lia|].
  destruct b as [|b0 b']; [cbn in *; lia|].
  rewrite len_cons in *.
  unfold store. rewrite len_cons.
  destruct (Z.ltb_spec 0 (1 + len b')); [|lia].
  cbn [Z.leb andb Z.to_nat firstn skipn app bind].
  change ((0 <=? 0) && true) with true. cbn [bind].
  rewrite slice_from_ok by (rewrite len_cons; lia).
  change (Z.to_nat 1) with 1%nat. cbn [skipn bind].
  assert (Hlr : (length rest <= length v)%nat).
  { destruct (Z.le_gt_cases (len v) 127) as [Hs|Hl].
    - destruct (Hshort Hs) as [_ ->]. cbn. lia.
    - unfold len in Hl. lia. }
  rewrite copy_into_cons, copy_into_0 by (cbn [length]; unfold len in *; lia).
  cbn [length app].
  rewrite slice_ok
    by (rewrite ?len_cons, ?len_app; unfold len in *; rewrite ?length_skipn; lia).
  cbn [bind].
  rewrite !copy_into_cons, copy_into_0.
  2:{ rewrite length_firstn, length_skipn. cbn [length].
      rewrite length_app, length_skipn. unfold len in *.
      apply Nat.min_glb; lia. }
  do 3 f_equal.
  rewrite skipn_app, skipn_all2 by lia. cbn [app].
  rewrite skipn_skipn.
  replace (length v - length rest + S (length rest))%nat with (S (length v)) by lia.
  reflexivity.
Qed.

Lemma skipn_repeat_x00 (n m : nat) :
  skipn n (repeat Byte.x00 m) = repeat Byte.x00 (m - n).
Proof.
  revert m. induction n as [|n IH]; intros m.
  - rewrite Nat.sub_0_r. reflexivity.
  - destruct m as [|m]; [reflexivity|]. cbn [repeat skipn Nat.sub]. apply IH.
Qed.

(** What [MarshalBinary] returns for an element whose length is that of
    its value: the tag, the first byte of the length header, the value,
    and as many zero bytes as the length header has bytes after its
    first. *)
Lemma MarshalBinary_writes (tag : Tag) (v : list byte) :
  MarshalBinary (NewIE tag v) =
  Ret (tag :: hd Byte.x00 (MarshalAsn1ElementLength (len v)) :: v
           ++ repeat Byte.x00 (length (tl (MarshalAsn1ElementLength (len v)))), None).
Proof.
  unfold MarshalBinary, make.
  pose proof (MarshalLen_NewIE tag v) as Hm.
  destruct (Marshal_shape (len v)) as (h & rest & E & Hrest & Hshort).
  pose proof (len_nonneg v).
  rewrite E, len_cons in Hm. pose proof (len_nonneg rest).
  destruct (Z.ltb_spec (MarshalLen (NewIE tag v)) 0); [lia|]. cbn [bind].
  rewrite MarshalTo_writes
    by (unfold len; rewrite repeat_length; fold (len v); lia).
  cbn [bind snd fst]. rewrite E. cbn [hd tl].
  rewrite skipn_repeat_x00, Hm.
  replace (Z.to_nat (1 + (1 + len rest) + len v) - (2 + length v))%nat
    with (length rest) by (unfold len; lia).
  reflexivity.
Qed.

(** For a value of at most 127 bytes the encoding is the claimed layout:
    tag, one length byte, value. *)
Lemma MarshalBinary_short (tag : Tag) (v : list byte) :
  len v <= 127 ->
  MarshalBinary (NewIE tag v) = Ret (tag :: to_byte (len v) :: v, None).
Proof.
  intros Hv. rewrite MarshalBinary_writes.
  destruct (Marshal_shape (len v)) as (h & rest & E & _ & Hshort).
  destruct (Hshort Hv) as [-> ->]. rewrite E. cbn [hd tl length repeat].
  rewrite app_nil_r. reflexivity.
Qed.

Lemma MarshalLen_short (tag : Tag) (v : list byte) :
  len v <= 127 -> MarshalLen (NewIE tag v) = 2 + len v.
Proof.
  intros Hv. rewrite MarshalLen_NewIE.
  destruct (Marshal_shape (len v)) as (h & rest & E & _ & Hshort).
  destruct (Hshort Hv) as [_ ->]. rewrite E, len_one. lia.
Qed.

(** Up to 127 bytes of value, [MarshalTo] writes the claimed layout. *)
Lemma MarshalTo_short_layout (tag : Tag) (v b : list byte) :
  len v <= 127 -> MarshalLen (NewIE tag v) <= len b ->
  MarshalTo (NewIE tag v) b =
  Ret (claimed_layout (NewIE tag v)
         ++ skipn (Z.to_nat (MarshalLen (NewIE tag v))) b, None).
Proof.
  intros Hv Hb. rewrite MarshalTo_writes by assumption.
  rewrite MarshalLen_short by assumption.
  unfold claimed_layout. cbn [iTag Length Value NewIE SetLength set_Length].
  destruct (Marshal_shape (len v)) as (h & rest & E & _ & Hshort).
  destruct (Hshort Hv) as [-> ->]. rewrite E. cbn [hd app].
  replace (Z.to_nat (2 + len v)) with (2 + length v)%nat by (unfold len; lia).
  reflexivity.
Qed.

(** C2 fails on the code for a value of 128 bytes.  [MarshalTo] copies the
    value to offset 2 whatever the width of the length header: the second
    byte [0x80] of the header [81 80] is overwritten by the first value
    byte, and the last byte of the 131-byte buffer is never written. *)
Theorem serialized_layout_long_form :
  let i := NewIE Byte.x04 (repeat Byte.xaa 128) in
  Length i = len (Value i)
  /\ MarshalLen i = 131
  /\ claimed_layout i = [Byte.x04; Byte.x81; Byte.x80] ++ repeat Byte.xaa 128
  /\ MarshalTo i (repeat Byte.x00 131)
     = Ret ([Byte.x04; Byte.x81] ++ repeat Byte.xaa 128 ++ [Byte.x00], None)
  /\ MarshalTo i (repeat Byte.x00 131) <> Ret (claimed_layout i, None).
Proof.
  cbv zeta. repeat split; try (vm_compute; reflexivity).
  vm_compute. discriminate.
Qed.

(** ** Round trips through the flat parser *)

Lemma NewIE_fields (tag : Tag) (v : list byte) : NewIE tag v = mkIE tag (len v) v [].
Proof. reflexivity. Qed.

(** The flat parser on the claimed layout of an element of at most 127
    value bytes, followed by anything, as long as three bytes are there. *)
Lemma ParseIE_encoded (tag : Tag) (v rest : list byte) :
  len v <= 127 -> 1 <= len v + len rest ->
  ParseIE (tag :: to_byte (len v) :: v ++ rest) = Ret (Some (NewIE tag v), None).
Proof.
  intros Hv Hrest. pose proof (len_nonneg v). pose proof (len_nonneg rest).
  set (b := tag :: to_byte (len v) :: v ++ rest).
  assert (Hb : len b = 2 + len v + len rest)
    by (unfold b; rewrite !len_cons, len_app; lia).
  assert (Hu : u8 (to_byte (len v)) = len v)
    by (rewrite u8_to_byte; apply Z.mod_small; lia).
  assert (Hd : UnmarshalAsn1ElementLength b = Ret (len v, None)).
  { rewrite decoders_agree by lia. unfold b.
    rewrite decode_short_form by lia. rewrite Hu. reflexivity. }
  unfold ParseIE.
  rewrite (UnmarshalBinary_decoded zeroIE b _ _ ltac:(lia) Hd).
  destruct (Z.ltb_spec (len b) (2 + len v)); [lia|].
  rewrite slice_ok by lia. cbn [bind snd fst].
  change (Z.to_nat 2) with 2%nat. unfold b. cbn [nth skipn].
  replace (Z.to_nat (2 + len v - 2)) with (length v) by (unfold len; lia).
  rewrite firstn_app, Nat.sub_diag, firstn_all. cbn [firstn]. rewrite app_nil_r.
  reflexivity.
Qed.

(** C3, as the code has it.  For every tag and every value of 1 to 127
    bytes, [MarshalBinary] of the element [NewIE] builds succeeds, and
    [ParseIE] of the bytes returns an element with the same tag, length
    and value (and no children). *)
Theorem primitive_round_trip (tag : Tag) (v : list byte) :
  1 <= len v <= 127 ->
  exists enc,
    MarshalBinary (NewIE tag v) = Ret (enc, None)
    /\ enc = claimed_layout (NewIE tag v)
    /\ exists i,
        ParseIE enc = Ret (Some i, None)
        /\ iTag i = tag /\ Length i = len v /\ Value i = v /\ iIE i = [].
Proof.
  intros Hv. exists (tag :: to_byte (len v) :: v). split; [|split].
  - apply MarshalBinary_short. lia.
  - unfold claimed_layout. cbn [iTag Length Value NewIE SetLength set_Length].
    destruct (Marshal_shape (len v)) as (h & rest & E & _ & Hshort).
    destruct (Hshort ltac:(lia)) as [-> ->]. rewrite E. reflexivity.
  - exists (NewIE tag v). split; [|repeat split].
    rewrite <- (app_nil_r v) at 2. apply ParseIE_encoded; cbn; lia.
Qed.

Lemma primitive_round_trip_witness :
  exists enc,
    MarshalBinary (NewIE Byte.x04 [Byte.xaa; Byte.xbb]) = Ret (enc, None)
    /\ enc = claimed_layout (NewIE Byte.x04 [Byte.xaa; Byte.xbb])
    /\ exists i,
        ParseIE enc = Ret (Some i, None)
        /\ iTag i = Byte.x04 /\ Length i = len [Byte.xaa; Byte.xbb]
        /\ Value i = [Byte.xaa; Byte.xbb] /\ iIE i = [].
Proof. apply (primitive_round_trip Byte.x04 [Byte.xaa; Byte.xbb]). cbn. lia. Defined.

(** The fourth worked case of the design document: tag [0x04] and value
    [aa bb] serialise to [04 02 aa bb], which parses back to the same
    element. *)
Example encode_decode_04 :
  MarshalBinary (NewIE Byte.x04 [Byte.xaa; Byte.xbb])
  = Ret ([Byte.x04; Byte.x02; Byte.xaa; Byte.xbb], None)
  /\ ParseIE [Byte.x04; Byte.x02; Byte.xaa; Byte.xbb]
     = Ret (Some (NewIE Byte.x04 [Byte.xaa; Byte.xbb]), None).
Proof. split; reflexivity. Qed.

(** C3 as stated fails for the empty value: the two bytes [04 00] that
    [MarshalBinary] produces are refused by [ParseIE], which wants three. *)
Lemma primitive_round_trip_empty_value :
  ~ (forall (tag : Tag) (v : list byte),
       Form tag = Primitive ->
       exists enc i,
         MarshalBinary (NewIE tag v) = Ret (enc, None)
         /\ ParseIE enc = Ret (Some i, None)
         /\ iTag i = tag /\ Length i = len v /\ Value i = v).
Proof.
  intros H. destruct (H Byte.x04 [] eq_refl) as (enc & i & Hm & Hp & _).
  vm_compute in Hm. injection Hm as <-. vm_compute in Hp. discriminate Hp.
Qed.

Lemma ends_with_value_tail (p : Tag * list byte) (l : list (Tag * list byte)) :
  ends_with_value (p :: l) -> ends_with_value l.
Proof.
  unfold ends_with_value. intros H Hl. destruct l as [|q l]; [congruence|].
  apply H. discriminate.
Qed.

(** The loop of [ParseMultiIEs] over the concatenated encodings of short
    elements: it appends exactly those elements, in order. *)
Lemma ParseMultiIEs_loop_encoded (l : list (Tag * list byte)) :
  Forall (fun p => len (snd p) <= 127) l -> ends_with_value l ->
  forall (fuel : nat) (acc : list IE),
    (length (concat (map short_encoding l)) < fuel)%nat ->
    ParseMultiIEs_loop fuel acc (concat (map short_encoding l))
    = Ret (acc ++ map element l, None).
Proof.
  induction l as [|[tag v] l IH]; intros Hshort Hlast fuel acc Hfuel.
  - destruct fuel as [|fuel]; [lia|]. cbn. rewrite app_nil_r. reflexivity.
  - destruct fuel as [|fuel]; [lia|].
    inversion Hshort as [|? ? Hv Hshort']; subst. cbn [snd] in Hv.
    cbn [map concat] in *. unfold short_encoding at 1. unfold short_encoding at 1 in Hfuel.
    cbn [fst snd app] in *.
    set (rest := concat (map short_encoding l)) in *.
    assert (Hrest : 1 <= len v + len rest).
    { destruct l as [|q l].
      - assert (v <> []) by (apply (Hlast ltac:(discriminate))).
        destruct v; [congruence|]. rewrite len_cons.
        pose proof (len_nonneg v). pose proof (len_nonneg rest). lia.
      - unfold rest. cbn [map concat]. unfold short_encoding at 1. cbn [app].
        rewrite !len_cons. pose proof (len_nonneg v).
        pose proof (len_nonneg (snd q ++ concat (map short_encoding l))). lia. }
    cbn [ParseMultiIEs_loop]. rewrite len_cons.
    pose proof (len_nonneg (to_byte (len v) :: v ++ rest)).
    destruct (Z.eqb_spec (1 + len (to_byte (len v) :: v ++ rest)) 0); [lia|].
    rewrite ParseIE_encoded by assumption. cbn [bind].
    rewrite MarshalLen_short by assumption.
    pose proof (len_nonneg v).
    rewrite slice_from_ok by (rewrite !len_cons, len_app; pose proof (len_nonneg rest); lia).
    replace (Z.to_nat (2 + len v)) with (2 + length v)%nat by (unfold len; lia).
    cbn [Nat.add skipn bind]. rewrite skipn_app, Nat.sub_diag, skipn_all. cbn [app skipn].
    rewrite IH.
    + rewrite <- app_assoc. reflexivity.
    + assumption.
    + apply (ends_with_value_tail _ _ Hlast).
    + cbn [length] in Hfuel. rewrite length_app in Hfuel. fold rest. lia.
Qed.

(** C7, as the code has it.  For every list of elements built by [NewIE]
    from values of at most 127 bytes, the last of which (if any) is not
    empty, every [MarshalBinary] succeeds, and [ParseMultiIEs] of the
    concatenated encodings returns exactly those elements in their order,
    whose encoded sizes add up to the length of the input. *)
Theorem flat_sequence_round_trip (l : list (Tag * list byte)) :
  Forall (fun p => len (snd p) <= 127) l -> ends_with_value l ->
  exists encs,
    Forall2 (fun p enc => MarshalBinary (element p) = Ret (enc, None)) l encs
    /\ ParseMultiIEs (concat encs) = Ret (map element l, None)
    /\ total_len (map element l) = len (concat encs).
Proof.
  intros Hshort Hlast. exists (map short_encoding l). split; [|split].
  - clear Hlast. induction Hshort as [|[tag v] l Hv _ IH]; constructor; [|exact IH].
    apply MarshalBinary_short. exact Hv.
  - unfold ParseMultiIEs. rewrite ParseMultiIEs_loop_encoded by (auto; lia).
    reflexivity.
  - clear Hlast. induction Hshort as [|[tag v] l Hv _ IH]; [reflexivity|].
    cbn [map concat total_len fold_right]. fold (total_len (map element l)).
    rewrite IH, len_app. unfold element at 1, short_encoding at 2. cbn [fst snd].
    rewrite MarshalLen_short, !len_cons by assumption. lia.
Qed.

Lemma flat_sequence_round_trip_witness :
  exists encs,
    Forall2 (fun p enc => MarshalBinary (element p) = Ret (enc, None))
            [(Byte.x04, [Byte.xaa; Byte.xbb]); (Byte.x05, []); (Byte.x06, [Byte.xcc])] encs
    /\ ParseMultiIEs (concat encs)
       = Ret (map element
                [(Byte.x04, [Byte.xaa; Byte.xbb]); (Byte.x05, []); (Byte.x06, [Byte.xcc])],
              None)
    /\ total_len (map element
                [(Byte.x04, [Byte.xaa; Byte.xbb]); (Byte.x05, []); (Byte.x06, [Byte.xcc])])
       = len (concat encs).
Proof.
  apply (flat_sequence_round_trip
           [(Byte.x04, [Byte.xaa; Byte.xbb]); (Byte.x05, []); (Byte.x06, [Byte.xcc])]).
  - repeat constructor; cbn; lia.
  - intros _. cbn. discriminate.
Defined.

(** C7 as stated fails for the single element with an empty value: its
    encoding [04 00] is refused by the flat parser. *)
Lemma flat_sequence_empty_last_value :
  ~ (forall (l : list (Tag * list byte)) (encs : list (list byte)),
       Forall (fun p => Form (fst p) = Primitive) l ->
       Forall2 (fun p enc => MarshalBinary (element p) = Ret (enc, None)) l encs ->
       exists ies,
         ParseMultiIEs (concat encs) = Ret (ies, None)
         /\ length ies = length l).
Proof.
  intros H.
  destruct (H [(Byte.x04, [])] [[Byte.x04; Byte.x00]]) as (ies & Hp & _).
  - repeat constructor.
  - repeat constructor.
  - vm_compute in Hp. discriminate Hp.
Qed.

(** ** The cursor of the flat sequence parser *)

(** What a successful [ParseIE] says about the buffer. *)
Lemma ParseIE_success (b : list byte) (i : IE) :
  ParseIE b = Ret (Some i, None) ->
  3 <= len b
  /\ UnmarshalAsn1ElementLength b = Ret (Length i, None)
  /\ 0 <= Length i /\ 2 + Length i <= len b.
Proof.
  intros Hp. destruct (Z.lt_ge_cases (len b) 3) as [Hs|Hb].
  - unfold ParseIE in Hp. rewrite UnmarshalBinary_short in Hp by assumption.
    discriminate Hp.
  - destruct (decoder_returns b ltac:(lia)) as (n & e & Hdec).
    unfold ParseIE in Hp. rewrite (UnmarshalBinary_decoded zeroIE b n e Hb Hdec) in Hp.
    destruct e as [err|]; [discriminate Hp|].
    pose proof (decoded_length_range b n Hdec).
    destruct (Z.ltb_spec (len b) (2 + n)); [discriminate Hp|].
    rewrite slice_ok in Hp by lia. cbn [bind snd fst] in Hp.
    injection Hp as <-. cbn [Length]. repeat split; try assumption; lia.
Qed.

Lemma ParseIE_returns (b : list byte) : exists r, ParseIE b = Ret r.
Proof.
  destruct (UnmarshalBinary_returns zeroIE b) as (i' & e & H & _).
  unfold ParseIE. rewrite H. cbn [bind snd fst]. destruct e; eauto.
Qed.

Lemma MarshalLen_lower (i : IE) : 0 <= Length i -> 2 <= MarshalLen i.
Proof.
  intros H. unfold MarshalLen.
  destruct (Marshal_shape (Length i)) as (h & rest & E & _ & _).
  rewrite E, len_cons. pose proof (len_nonneg rest). lia.
Qed.

(** With a decoded length of at most 127 the advance of the flat sequence
    parser stays inside the buffer. *)
Lemma ParseIE_advance_short (b : list byte) (i : IE) :
  ParseIE b = Ret (Some i, None) -> Length i <= 127 -> MarshalLen i <= len b.
Proof.
  intros Hp Hl. destruct (ParseIE_success b i Hp) as (_ & _ & H0 & H2).
  unfold MarshalLen.
  destruct (Marshal_shape (Length i)) as (h & rest & E & _ & Hshort).
  destruct (Hshort Hl) as [_ ->]. rewrite E, len_one. lia.
Qed.

(** The loop of [ParseMultiIEs] does not use up a fuel larger than the
    buffer: it returns or panics. *)
Lemma ParseMultiIEs_loop_fuel (fuel : nat) :
  forall (acc : list IE) (b : list byte),
    (length b < fuel)%nat -> ParseMultiIEs_loop fuel acc b <> OutOfFuel.
Proof.
  induction fuel as [|fuel IH]; intros acc b Hfuel; [lia|].
  cbn [ParseMultiIEs_loop]. destruct (len b =? 0); [discriminate|].
  destruct (ParseIE_returns b) as ([[i|] [err|]] & Hp); rewrite Hp; cbn [bind];
    try discriminate.
  pose proof (ParseIE_success b i Hp) as (_ & _ & H0 & _).
  pose proof (MarshalLen_lower i H0).
  destruct (Z.le_gt_cases (MarshalLen i) (len b)).
  - rewrite slice_from_ok by lia. cbn [bind]. apply IH.
    rewrite length_skipn. unfold len in *. lia.
  - rewrite slice_from_panic by lia. discriminate.
Qed.

Lemma ParseMultiIEs_total (b : list byte) : ParseMultiIEs b <> OutOfFuel.
Proof. apply ParseMultiIEs_loop_fuel. lia. Qed.

(** C10 fails on the code for a 130-byte buffer that announces 128 value
    bytes in long form, [04 81 80] and 127 more bytes.  [UnmarshalBinary]
    asks for [2 + 128] bytes only and succeeds; [MarshalLen] counts the
    two-byte header, 131, and the advance [b[131:]] is out of range. *)
Theorem flat_sequence_advance_out_of_range :
  let b := [Byte.x04; Byte.x81; Byte.x80] ++ repeat Byte.x00 127 in
  len b = 130
  /\ (exists i,
        ParseIE b = Ret (Some i, None)
        /\ Length i = 128 /\ MarshalLen i = 131
        /\ slice_from b (MarshalLen i) = Panic)
  /\ ParseMultiIEs b = Panic.
Proof.
  cbv zeta. split; [reflexivity|]. split; [|vm_compute; reflexivity].
  eexists. split; [vm_compute; reflexivity|]. repeat split; vm_compute; reflexivity.
Qed.

(** ** The recursive parser *)

Section RecursiveCases.

Variable rec : list byte -> run (list IE * option error).

Lemma ParseRecursive_with_short (i : IE) (b : list byte) :
  len b < 2 -> ParseRecursive_with rec i b = Ret (i, Some ErrUnexpectedEOF).
Proof.
  intros H. unfold ParseRecursive_with.
  destruct (Z.ltb_spec (len b) 2); [reflexivity|lia].
Qed.

(** [ParseRecursive], once the length header is decoded. *)
Lemma ParseRecursive_with_decoded (i : IE) (b : list byte) (n : Z) (e : option error) :
  2 <= len b -> UnmarshalAsn1ElementLength b = Ret (n, e) ->
  ParseRecursive_with rec i b =
  let t := nth 0 b Byte.x00 in
  match e with
  | Some err => Ret (mkIE t n (Value i) (iIE i), Some err)
  | None =>
      if n + 2 >? len b then Ret (mkIE t n (Value i) (iIE i), None)
      else
        v <- slice b 2 (2 + n) ;;
        if Form t =? 1
        then
          x <- rec v ;;
          match snd x with
          | Some _ => Ret (mkIE t n v (iIE i), None)
          | None => Ret (mkIE t n v (iIE i ++ fst x), None)
          end
        else Ret (mkIE t n v (iIE i), None)
  end.
Proof.
  intros Hb Hdec. destruct (len_ge_2 b Hb) as (t & x & rest & ->).
  unfold ParseRecursive_with. rewrite Hdec, index_0.
  destruct (Z.ltb_spec (len (t :: x :: rest)) 2); [lia|].
  cbn [bind fst snd nth]. cbv zeta. destruct e; [reflexivity|].
  cbn [Length set_Length set_Tag].
  destruct (n + 2 >? len (t :: x :: rest)); [reflexivity|].
  destruct (slice (t :: x :: rest) 2 (2 + n)); reflexivity.
Qed.

End RecursiveCases.

Lemma MarshalLen_header (i : IE) : 2 + Length i <= MarshalLen i.
Proof.
  unfold MarshalLen.
  destruct (Marshal_shape (Length i)) as (h & rest & E & _ & _).
  rewrite E, len_cons. pose proof (len_nonneg rest). lia.
Qed.

(** The sequence parser on a buffer whose first element declares more
    bytes than the buffer holds: the element comes back without a value,
    and the advance by its [MarshalLen] is out of range. *)
Lemma ParseAsBER_overrun (b : list byte) (n : Z) :
  2 <= len b -> UnmarshalAsn1ElementLength b = Ret (n, None) -> len b < n + 2 ->
  ParseAsBER b = Panic.
Proof.
  intros Hb Hdec Hover. unfold ParseAsBER. cbn [ParseAsBER_loop].
  destruct (Z.eqb_spec (len b) 0); [lia|].
  unfold ParseIERecursive_with.
  rewrite (ParseRecursive_with_decoded _ zeroIE b n None Hb Hdec). cbv zeta.
  destruct (Z.gtb_spec (n + 2) (len b)); [|lia].
  cbn [bind snd fst iIE zeroIE app len length Z.of_nat Z.eqb].
  rewrite slice_from_panic; [reflexivity|].
  pose proof (MarshalLen_header (mkIE (nth 0 b Byte.x00) n [] [])) as HM.
  cbn [Length] in HM. cbn [Value zeroIE]. lia.
Qed.

(** C4 fails on the code for nested elements.  On a buffer whose declared
    length overruns it, [ParseRecursive] itself returns no error and
    leaves the value (and the children) of its receiver as they were,
    where [UnmarshalBinary] reports [io.ErrUnexpectedEOF]; but the
    sequence parser [ParseAsBER], which is what parses the value of a
    constructed element, then advances by the [MarshalLen] of that
    element and panics; and so does [ParseRecursive] on every constructed
    element whose value is such a buffer. *)
Theorem nested_overrun_panics (i : IE) (b : list byte) (n : Z) :
  2 <= len b -> UnmarshalAsn1ElementLength b = Ret (n, None) -> len b < n + 2 ->
  ParseRecursive i b = Ret (mkIE (nth 0 b Byte.x00) n (Value i) (iIE i), None)
  /\ (exists i', UnmarshalBinary i b = Ret (i', Some ErrUnexpectedEOF))
  /\ ParseAsBER b = Panic
  /\ (forall (j : IE) (outer : list byte) (m : Z),
        Form (nth 0 outer Byte.x00) = Constructor ->
        UnmarshalAsn1ElementLength outer = Ret (m, None) ->
        slice outer 2 (2 + m) = Ret b ->
        ParseRecursive j outer = Panic).
Proof.
  intros Hb Hdec Hover.
  pose proof (ParseAsBER_overrun b n Hb Hdec Hover) as Hpanic.
  split; [|split; [|split; [exact Hpanic|]]].
  - unfold ParseRecursive.
    rewrite (ParseRecursive_with_decoded _ i b n None Hb Hdec). cbv zeta.
    destruct (Z.gtb_spec (n + 2) (len b)); [reflexivity|lia].
  - destruct (Z.lt_ge_cases (len b) 3) as [Hs|H3].
    + rewrite UnmarshalBinary_short by assumption. eauto.
    + rewrite (UnmarshalBinary_decoded i b n None H3 Hdec).
      destruct (Z.ltb_spec (len b) (2 + n)); [eauto|lia].
  - intros j outer m Hform Hdec' Hslice.
    assert (Hm : 2 <= len outer /\ m + 2 <= len outer).
    { pose proof (decoded_length_range outer m Hdec').
      unfold slice in Hslice.
      destruct (Z.leb_spec (2 + m) (len outer)); [lia|].
      rewrite andb_false_r in Hslice. discriminate Hslice. }
    unfold ParseRecursive.
    rewrite (ParseRecursive_with_decoded _ j outer m None (proj1 Hm) Hdec'). cbv zeta.
    destruct (Z.gtb_spec (m + 2) (len outer)); [lia|].
    rewrite Hslice. cbn [bind]. rewrite Hform. cbn [Constructor Z.eqb Pos.eqb].
    rewrite Hpanic. reflexivity.
Qed.

(** The failing input of C4: the primitive element [04 05 aa] announces
    five value bytes and has one; wrapped as the value of the constructed
    element [30 03 ..], it makes [ParseRecursive] panic. *)
Lemma nested_overrun_panics_witness :
  ParseRecursive zeroIE [Byte.x04; Byte.x05; Byte.xaa]
  = Ret (mkIE Byte.x04 5 [] [], None)
  /\ (exists i', UnmarshalBinary zeroIE [Byte.x04; Byte.x05; Byte.xaa]
                 = Ret (i', Some ErrUnexpectedEOF))
  /\ ParseAsBER [Byte.x04; Byte.x05; Byte.xaa] = Panic
  /\ ParseRecursive zeroIE [Byte.x30; Byte.x03; Byte.x04; Byte.x05; Byte.xaa] = Panic.
Proof.
  destruct (nested_overrun_panics zeroIE [Byte.x04; Byte.x05; Byte.xaa] 5)
    as (H1 & H2 & H3 & H4); [cbn; lia|reflexivity|cbn; lia|].
  split; [exact H1|]. split; [exact H2|]. split; [exact H3|].
  exact (H4 zeroIE [Byte.x30; Byte.x03; Byte.x04; Byte.x05; Byte.xaa] 3
            eq_refl eq_refl eq_refl).
Defined.

(** The part of the leniency that the code does have: an error (not a
    panic) of the sequence parser on the value of a constructed element
    is swallowed, and the element comes back with its value and without
    children added. *)
Lemma nested_error_swallowed (i : IE) (b v : list byte) (n : Z)
      (x : list IE) (err : error) :
  UnmarshalAsn1ElementLength b = Ret (n, None) ->
  slice b 2 (2 + n) = Ret v ->
  Form (nth 0 b Byte.x00) = Constructor ->
  ParseAsBER v = Ret (x, Some err) ->
  ParseRecursive i b = Ret (mkIE (nth 0 b Byte.x00) n v (iIE i), None).
Proof.
  intros Hdec Hslice Hform Hv.
  assert (Hm : 2 <= len b /\ n + 2 <= len b).
  { pose proof (decoded_length_range b n Hdec).
    unfold slice in Hslice.
    destruct (Z.leb_spec (2 + n) (len b)); [lia|].
    rewrite andb_false_r in Hslice. discriminate Hslice. }
  unfold ParseRecursive.
  rewrite (ParseRecursive_with_decoded _ i b n None (proj1 Hm) Hdec). cbv zeta.
  destruct (Z.gtb_spec (n + 2) (len b)); [lia|].
  rewrite Hslice. cbn [bind]. rewrite Hform. cbn [Constructor Z.eqb Pos.eqb].
  rewrite Hv. reflexivity.
Qed.

(** ** The cursor of the recursive sequence parser *)

Lemma children_len_total (l : list IE) : children_len l = 2 + total_len l.
Proof.
  unfold children_len. generalize 2 as a.
  induction l as [|i l IH]; intros a; cbn [fold_left total_len fold_right]; [lia|].
  rewrite IH. fold (total_len l). lia.
Qed.

(** One round of the loop of [ParseAsBER]: its three ways of moving the
    cursor are the one advance [cursor_advance]. *)
Lemma ParseAsBER_loop_step (fuel : nat) (acc : list IE) (b : list byte) :
  ParseAsBER_loop (S fuel) acc b =
  if len b =? 0 then Ret (acc, None)
  else
    r <- ParseIERecursive_with (ParseAsBER_loop fuel []) b ;;
    match r with
    | (_, Some err) => Ret ([], Some err)
    | (None, None) => Panic
    | (Some i, None) =>
        b' <- slice_from b (cursor_advance i) ;;
        ParseAsBER_loop fuel (acc ++ [i]) b'
    end.
Proof.
  cbn [ParseAsBER_loop]. destruct (len b =? 0); [reflexivity|].
  destruct (ParseIERecursive_with (ParseAsBER_loop fuel []) b) as [[[i|] [e|]]| |];
    cbn [bind]; try reflexivity.
  unfold cursor_advance. destruct (iIE i) as [|i0 l]; [reflexivity|].
  rewrite len_cons. pose proof (len_nonneg l).
  destruct (Z.eqb_spec (1 + len l) 0); [lia|].
  destruct (MarshalLen i0 <? MarshalLen i - 2); [|reflexivity].
  rewrite children_len_total. reflexivity.
Qed.

Lemma slice_2_length (b v : list byte) (hi : Z) :
  slice b 2 hi = Ret v -> (length v + 2 <= length b)%nat.
Proof.
  unfold slice. change (0 <=? 2) with true. cbn [andb].
  destruct (Z.leb_spec 2 hi); [|discriminate].
  destruct (Z.leb_spec hi (len b)); [|discriminate]. cbn [andb].
  intros [= <-]. rewrite length_firstn.
  destruct b as [|x [|y b]]; cbn [length] in *; unfold len in *; cbn [length] in *; lia.
Qed.

Section RecursiveCall.

Variables rec1 rec2 : list byte -> run (list IE * option error).

(** [ParseRecursive] calls the sequence parser on a value at least two
    bytes shorter than its buffer, and nowhere else. *)
Lemma ParseRecursive_with_ext (i : IE) (b : list byte) :
  (forall v, (length v + 2 <= length b)%nat -> rec1 v = rec2 v) ->
  ParseRecursive_with rec1 i b = ParseRecursive_with rec2 i b.
Proof.
  intros Hrec. destruct (Z.lt_ge_cases (len b) 2) as [Hs|Hb].
  - rewrite !ParseRecursive_with_short by assumption. reflexivity.
  - destruct (decoder_returns b Hb) as (n & e & Hdec).
    rewrite !(ParseRecursive_with_decoded _ i b n e Hb Hdec). cbv zeta.
    destruct e; [reflexivity|]. destruct (n + 2 >? len b); [reflexivity|].
    destruct (slice b 2 (2 + n)) as [v| |] eqn:Hv; try reflexivity. cbn [bind].
    rewrite (Hrec v (slice_2_length _ _ _ Hv)). reflexivity.
Qed.

Lemma ParseIERecursive_with_ext (b : list byte) :
  (forall v, (length v + 2 <= length b)%nat -> rec1 v = rec2 v) ->
  ParseIERecursive_with rec1 b = ParseIERecursive_with rec2 b.
Proof.
  intros Hrec. unfold ParseIERecursive_with.
  rewrite (ParseRecursive_with_ext zeroIE b Hrec). reflexivity.
Qed.

(** What a successful [ParseIERecursive] says: the buffer is not empty,
    the length of the element is a decoded one, and its children, if it
    has any, are what the sequence parser returned for a shorter buffer. *)
Lemma ParseIERecursive_with_success (b : list byte) (i : IE) :
  ParseIERecursive_with rec1 b = Ret (Some i, None) ->
  2 <= len b
  /\ length_nonneg i
  /\ (iIE i = []
      \/ exists v, (length v + 2 <= length b)%nat /\ rec1 v = Ret (iIE i, None)).
Proof.
  unfold ParseIERecursive_with. intros Hp.
  destruct (Z.lt_ge_cases (len b) 2) as [Hs|Hb].
  - rewrite ParseRecursive_with_short in Hp by assumption. discriminate Hp.
  - destruct (decoder_returns b Hb) as (n & e & Hdec).
    rewrite (ParseRecursive_with_decoded _ zeroIE b n e Hb Hdec) in Hp. cbv zeta in Hp.
    destruct e; [discriminate Hp|].
    pose proof (decoded_length_range b n Hdec) as Hn.
    split; [assumption|]. unfold length_nonneg.
    destruct (n + 2 >? len b).
    { injection Hp as <-. cbn. split; [lia|now left]. }
    destruct (slice b 2 (2 + n)) as [v| |] eqn:Hv; try discriminate Hp.
    cbn [bind] in Hp.
    destruct (Form (nth 0 b Byte.x00) =? 1).
    + destruct (rec1 v) as [[x [err|]]| |] eqn:Hx; cbn [bind snd fst] in Hp;
        try discriminate Hp; injection Hp as <-; cbn [Length iIE zeroIE app].
      * split; [lia|now left].
      * split; [lia|right]. exists v. split; [exact (slice_2_length _ _ _ Hv)|exact Hx].
    + injection Hp as <-. cbn. split; [lia|now left].
Qed.

(** [ParseIERecursive] runs out of fuel only if the sequence parser does
    on a shorter buffer. *)
Lemma ParseIERecursive_with_fuel (b : list byte) :
  (forall v, (length v + 2 <= length b)%nat -> rec1 v <> OutOfFuel) ->
  ParseIERecursive_with rec1 b <> OutOfFuel.
Proof.
  intros Hrec. unfold ParseIERecursive_with.
  destruct (Z.lt_ge_cases (len b) 2) as [Hs|Hb].
  - rewrite ParseRecursive_with_short by assumption. discriminate.
  - destruct (decoder_returns b Hb) as (n & e & Hdec).
    rewrite (ParseRecursive_with_decoded _ zeroIE b n e Hb Hdec). cbv zeta.
    destruct e; [discriminate|].
    pose proof (decoded_length_range b n Hdec) as Hn.
    destruct (Z.gtb_spec (n + 2) (len b)); [discriminate|].
    rewrite slice_ok by lia. cbn [bind].
    destruct (Form (nth 0 b Byte.x00) =? 1); [|discriminate].
    match goal with |- context [rec1 ?v] =>
      pose proof (Hrec v) as Hv; destruct (rec1 v) as [[x [err|]]| |] end;
      cbn [bind snd fst]; try discriminate.
    exfalso. apply Hv; [|reflexivity].
    rewrite length_firstn, length_skipn. unfold len in *. lia.
Qed.

End RecursiveCall.

(** Every element the sequence parser returns has a decoded length. *)
Lemma ParseAsBER_loop_lengths (fuel : nat) :
  forall (acc : list IE) (b : list byte) (ies : list IE),
    Forall length_nonneg acc ->
    ParseAsBER_loop fuel acc b = Ret (ies, None) ->
    Forall length_nonneg ies.
Proof.
  induction fuel as [|fuel IH]; intros acc b ies Hacc Hloop; [discriminate Hloop|].
  rewrite ParseAsBER_loop_step in Hloop.
  destruct (len b =? 0); [injection Hloop as <-; exact Hacc|].
  destruct (ParseIERecursive_with (ParseAsBER_loop fuel []) b)
    as [[[i|] [e|]]| |] eqn:Hp; cbn [bind] in Hloop; try discriminate Hloop.
  destruct (ParseIERecursive_with_success _ _ _ Hp) as (_ & Hi & _).
  destruct (slice_from b (cursor_advance i)) as [b'| |]; cbn [bind] in Hloop;
    try discriminate Hloop.
  apply (IH (acc ++ [i]) b' ies); [|exact Hloop].
  apply Forall_app. split; [exact Hacc|]. repeat constructor. exact Hi.
Qed.

Lemma total_len_nonneg (l : list IE) : Forall length_nonneg l -> 0 <= total_len l.
Proof.
  induction 1 as [|i l Hi _ IH]; cbn [total_len fold_right]; [lia|].
  fold (total_len l). pose proof (MarshalLen_lower i Hi). lia.
Qed.

(** The cursor moves by at least two bytes. *)
Lemma cursor_advance_lower (i : IE) :
  length_nonneg i -> Forall length_nonneg (iIE i) -> 2 <= cursor_advance i.
Proof.
  intros Hi Hc. pose proof (MarshalLen_lower i Hi). pose proof (total_len_nonneg _ Hc).
  unfold cursor_advance. destruct (iIE i) as [|i0 l]; [assumption|].
  destruct (MarshalLen i0 <? MarshalLen i - 2); lia.
Qed.

(** The advance after a successful [ParseIERecursive], whatever the fuel
    of the nested calls. *)
Lemma parsed_advance_lower (fuel : nat) (b : list byte) (i : IE) :
  ParseIERecursive_with (ParseAsBER_loop fuel []) b = Ret (Some i, None) ->
  2 <= cursor_advance i.
Proof.
  intros Hp. destruct (ParseIERecursive_with_success _ _ _ Hp) as (_ & Hi & Hc).
  apply cursor_advance_lower; [exact Hi|].
  destruct Hc as [->|(v & _ & Hv)]; [constructor|].
  exact (ParseAsBER_loop_lengths _ _ _ _ (Forall_nil _) Hv).
Qed.

(** The result of the loop does not depend on the fuel, once the fuel
    exceeds the length of the buffer. *)
Lemma ParseAsBER_loop_fuel_indep (f1 : nat) :
  forall (f2 : nat) (acc : list IE) (b : list byte),
    (length b < f1)%nat -> (length b < f2)%nat ->
    ParseAsBER_loop f1 acc b = ParseAsBER_loop f2 acc b.
Proof.
  induction f1 as [|f1 IH]; intros f2 acc b H1 H2; [lia|].
  destruct f2 as [|f2]; [lia|]. rewrite !ParseAsBER_loop_step.
  destruct (len b =? 0); [reflexivity|].
  rewrite (ParseIERecursive_with_ext (ParseAsBER_loop f1 []) (ParseAsBER_loop f2 []))
    by (intros v Hv; apply IH; lia).
  destruct (ParseIERecursive_with (ParseAsBER_loop f2 []) b)
    as [[[i|] [e|]]| |] eqn:Hp; cbn [bind]; try reflexivity.
  pose proof (parsed_advance_lower _ _ _ Hp).
  destruct (Z.le_gt_cases (cursor_advance i) (len b)).
  - rewrite slice_from_ok by lia. cbn [bind].
    apply IH; rewrite length_skipn; unfold len in *; lia.
  - rewrite slice_from_panic by lia. reflexivity.
Qed.

(** The loop does not use up a fuel larger than the buffer. *)
Lemma ParseAsBER_loop_fuel (fuel : nat) :
  forall (acc : list IE) (b : list byte),
    (length b < fuel)%nat -> ParseAsBER_loop fuel acc b <> OutOfFuel.
Proof.
  induction fuel as [|fuel IH]; intros acc b Hfuel; [lia|].
  rewrite ParseAsBER_loop_step. destruct (len b =? 0); [discriminate|].
  pose proof (ParseIERecursive_with_fuel (ParseAsBER_loop fuel []) b
                ltac:(intros v Hv; apply IH; lia)) as Hn.
  destruct (ParseIERecursive_with (ParseAsBER_loop fuel []) b)
    as [[[i|] [e|]]| |] eqn:Hp; cbn [bind]; try discriminate; try congruence.
  pose proof (parsed_advance_lower _ _ _ Hp).
  destruct (Z.le_gt_cases (cursor_advance i) (len b)).
  - rewrite slice_from_ok by lia. cbn [bind].
    apply IH; rewrite length_skipn; unfold len in *; lia.
  - rewrite slice_from_panic by lia. discriminate.
Qed.

Lemma ParseAsBER_total (b : list byte) : ParseAsBER b <> OutOfFuel.
Proof. apply ParseAsBER_loop_fuel. lia. Qed.

(** The accumulator of the loop is a prefix of its result. *)
Lemma ParseAsBER_loop_acc (fuel : nat) :
  forall (acc : list IE) (b : list byte),
    ParseAsBER_loop fuel acc b =
    r <- ParseAsBER_loop fuel [] b ;;
    Ret (match snd r with
         | Some e => ([], Some e)
         | None => (acc ++ fst r, None)
         end).
Proof.
  induction fuel as [|fuel IH]; intros acc b; [reflexivity|].
  rewrite !ParseAsBER_loop_step. destruct (len b =? 0).
  { cbn [bind snd fst]. rewrite app_nil_r. reflexivity. }
  destruct (ParseIERecursive_with (ParseAsBER_loop fuel []) b)
    as [[[i|] [e|]]| |]; cbn [bind snd fst]; try reflexivity.
  destruct (slice_from b (cursor_advance i)) as [b'| |]; cbn [bind]; try reflexivity.
  rewrite (IH (acc ++ [i])), (IH ([] ++ [i])).
  destruct (ParseAsBER_loop fuel [] b') as [[x [e|]]| |]; cbn [bind snd fst];
    try reflexivity.
  rewrite <- app_assoc. reflexivity.
Qed.

(** C5, as the code has it.  Whenever [ParseIERecursive] parses an
    element [i] from the front of the buffer, [ParseAsBER] goes on from
    [b[cursor_advance i:]] and puts [i] in front of what it parses there;
    the advance is [2 + ] the sum of the children's [MarshalLen] if [i]
    has a child and the first child's [MarshalLen] is strictly below the
    [MarshalLen] of [i] minus 2, and the [MarshalLen] of [i] in every
    other case. *)
Theorem cursor_advance_heuristic (b : list byte) (i : IE) :
  ParseIERecursive b = Ret (Some i, None) ->
  ParseAsBER b =
    (rest <- slice_from b (cursor_advance i) ;;
     r <- ParseAsBER rest ;;
     Ret (match snd r with
          | Some e => ([], Some e)
          | None => (i :: fst r, None)
          end))
  /\ (forall first others,
        iIE i = first :: others -> MarshalLen first < MarshalLen i - 2 ->
        cursor_advance i = 2 + total_len (iIE i))
  /\ (forall first others,
        iIE i = first :: others -> MarshalLen i - 2 <= MarshalLen first ->
        cursor_advance i = MarshalLen i)
  /\ (iIE i = [] -> cursor_advance i = MarshalLen i).
Proof.
  intros Hp.
  assert (Hrec : ParseIERecursive_with (ParseAsBER_loop (length b) []) b
                 = Ret (Some i, None)).
  { rewrite <- Hp. unfold ParseIERecursive. apply ParseIERecursive_with_ext.
    intros v Hv. apply ParseAsBER_loop_fuel_indep; lia. }
  split; [|split; [|split]].
  - destruct (ParseIERecursive_with_success _ _ _ Hrec) as (Hb & _).
    pose proof (parsed_advance_lower _ _ _ Hrec).
    unfold ParseAsBER at 1. rewrite ParseAsBER_loop_step.
    destruct (Z.eqb_spec (len b) 0); [lia|]. rewrite Hrec. cbn [bind].
    destruct (Z.le_gt_cases (cursor_advance i) (len b)).
    + rewrite slice_from_ok by lia. cbn [bind].
      rewrite ParseAsBER_loop_acc. unfold ParseAsBER.
      rewrite (ParseAsBER_loop_fuel_indep (length b)
                 (S (length (skipn (Z.to_nat (cursor_advance i)) b))))
        by (rewrite ?length_skipn; unfold len in *; lia).
      reflexivity.
    + rewrite slice_from_panic by lia. reflexivity.
  - intros first others E Hlt. unfold cursor_advance. rewrite E.
    destruct (Z.ltb_spec (MarshalLen first) (MarshalLen i - 2)); [reflexivity|lia].
  - intros first others E Hge. unfold cursor_advance. rewrite E.
    destruct (Z.ltb_spec (MarshalLen first) (MarshalLen i - 2)); [lia|reflexivity].
  - intros E. unfold cursor_advance. rewrite E. reflexivity.
Qed.

(** [cursor_advance_heuristic] on two buffers.  On [30 06 | 04 01 aa |
    05 01 bb] followed by a primitive element both amounts are 8.  On the
    130 bytes [30 81 | 80 7e | 126 zero bytes] the element has length 128,
    its value starts at the length octet [80], and it has one child of
    128 bytes: the advance is [2 + 128 = 130], the
    whole buffer, where the [MarshalLen] of the element is 131. *)
Lemma cursor_advance_heuristic_witness :
  (let b := [Byte.x30; Byte.x06; Byte.x04; Byte.x01; Byte.xaa;
             Byte.x05; Byte.x01; Byte.xbb; Byte.x06; Byte.x01; Byte.xcc] in
   let c1 := mkIE Byte.x04 1 [Byte.xaa] [] in
   let c2 := mkIE Byte.x05 1 [Byte.xbb] [] in
   let i := mkIE Byte.x30 6
                 [Byte.x04; Byte.x01; Byte.xaa; Byte.x05; Byte.x01; Byte.xbb] [c1; c2] in
   ParseAsBER b =
     (rest <- slice_from b (cursor_advance i) ;;
      r <- ParseAsBER rest ;;
      Ret (match snd r with
           | Some e => ([], Some e)
           | None => (i :: fst r, None)
           end))
   /\ cursor_advance i = 2 + total_len (iIE i))
  /\ (let b := [Byte.x30; Byte.x81; Byte.x80; Byte.x7e]
                ++ repeat Byte.x00 126 in
      let c := mkIE Byte.x80 126 (repeat Byte.x00 126) [] in
      let i := mkIE Byte.x30 128 ([Byte.x80; Byte.x7e] ++ repeat Byte.x00 126) [c] in
      ParseAsBER b =
        (rest <- slice_from b (cursor_advance i) ;;
         r <- ParseAsBER rest ;;
         Ret (match snd r with
              | Some e => ([], Some e)
              | None => (i :: fst r, None)
              end))
      /\ cursor_advance i = 2 + total_len (iIE i)
      /\ 2 + total_len (iIE i) = 130 /\ MarshalLen i = 131).
Proof.
  cbv zeta. split.
  - destruct (cursor_advance_heuristic
                [Byte.x30; Byte.x06; Byte.x04; Byte.x01; Byte.xaa;
                 Byte.x05; Byte.x01; Byte.xbb; Byte.x06; Byte.x01; Byte.xcc]
                (mkIE Byte.x30 6
                      [Byte.x04; Byte.x01; Byte.xaa; Byte.x05; Byte.x01; Byte.xbb]
                      [mkIE Byte.x04 1 [Byte.xaa] []; mkIE Byte.x05 1 [Byte.xbb] []])
                eq_refl) as (H1 & H2 & _).
    split; [exact H1|].
    apply (H2 _ _ eq_refl). vm_compute. reflexivity.
  - destruct (cursor_advance_heuristic
                ([Byte.x30; Byte.x81; Byte.x80; Byte.x7e]
                   ++ repeat Byte.x00 126)
                (mkIE Byte.x30 128 ([Byte.x80; Byte.x7e] ++ repeat Byte.x00 126)
                      [mkIE Byte.x80 126 (repeat Byte.x00 126) []]))
      as (H1 & H2 & _); [vm_compute; reflexivity|].
    split; [exact H1|]. split; [|split; vm_compute; reflexivity].
    apply (H2 _ _ eq_refl). vm_compute. reflexivity.
Defined.

(** C5 as stated fails in its 'only if' half.  On [30 03 | 04 01 aa] the
    element has one child that fills its value: the first child's
    [MarshalLen], 3, is not below [5 - 2], and yet the cursor advances by
    [2 + 3], which is also the [MarshalLen] of the element. *)
Lemma cursor_advance_not_only_if :
  ~ (forall (b : list byte) (i : IE),
       ParseIERecursive b = Ret (Some i, None) ->
       (ParseAsBER b =
          (rest <- slice_from b (2 + total_len (iIE i)) ;;
           r <- ParseAsBER rest ;;
           Ret (match snd r with
                | Some e => ([], Some e)
                | None => (i :: fst r, None)
                end)))
       <-> (exists first others,
              iIE i = first :: others /\ MarshalLen first < MarshalLen i - 2)).
Proof.
  intros H.
  destruct (H [Byte.x30; Byte.x03; Byte.x04; Byte.x01; Byte.xaa]
              (mkIE Byte.x30 3 [Byte.x04; Byte.x01; Byte.xaa]
                    [mkIE Byte.x04 1 [Byte.xaa] []]) eq_refl) as [Hfwd _].
  destruct (Hfwd ltac:(vm_compute; reflexivity)) as (first & others & E & Hlt).
  cbn [iIE] in E. injection E as <- <-. vm_compute in Hlt. discriminate Hlt.
Qed.

(** The fifth worked case of the design document: a constructed element
    whose value is the concatenation of two primitive elements parses
    into exactly two children, in order. *)
Example constructed_two_children :
  ParseAsBER [Byte.x30; Byte.x06; Byte.x04; Byte.x01; Byte.xaa;
              Byte.x05; Byte.x01; Byte.xbb]
  = Ret ([mkIE Byte.x30 6
               [Byte.x04; Byte.x01; Byte.xaa; Byte.x05; Byte.x01; Byte.xbb]
               [mkIE Byte.x04 1 [Byte.xaa] []; mkIE Byte.x05 1 [Byte.xbb] []]],
         None).
Proof. vm_compute. reflexivity. Qed.

(** * Further properties of the code *)

(** ** Tags *)

(** X1. Taking a tag apart and packing the fields again gives the tag
    back, for every tag byte; the fields are within their widths. *)
Theorem tag_fields_recompose (t : Tag) :
  NewTag (Class t) (Form t) (Code t) = t
  /\ 0 <= Class t <= 3 /\ 0 <= Form t <= 1 /\ 0 <= Code t <= 31.
Proof.
  destruct t; (split; [reflexivity|]); vm_compute;
    repeat split; discriminate.
Qed.

Lemma tag_fields_in_range (cls form code : Z) :
  0 <= cls <= 3 -> 0 <= form <= 1 -> 0 <= code <= 31 ->
  tag_fields (NewTag cls form code) = (cls, form, code).
Proof.
  intros Hc Hf Hd.
  pose proof (all_below_spec _ _ tag_fields_ok_all cls ltac:(lia)) as H1.
  pose proof (all_below_spec _ _ H1 form ltac:(lia)) as H2.
  pose proof (all_below_spec _ _ H2 code ltac:(lia)) as H3.
  unfold tag_fields_ok in H3.
  repeat (apply andb_prop in H3; destruct H3 as [H3 ?]).
  unfold tag_fields. repeat f_equal; apply Z.eqb_eq; assumption.
Qed.

(** X2. For a code in [0,31], each of the eight named constructors builds
    the tag of its class and form with that code. *)
Theorem named_tag_constructors (code : Z) :
  0 <= code <= 31 ->
  tag_fields (NewUniversalPrimitiveTag code) = (Universal, Primitive, code)
  /\ tag_fields (NewUniversalConstructorTag code) = (Universal, Constructor, code)
  /\ tag_fields (NewApplicationWidePrimitiveTag code) = (ApplicationWide, Primitive, code)
  /\ tag_fields (NewApplicationWideConstructorTag code) = (ApplicationWide, Constructor, code)
  /\ tag_fields (NewContextSpecificPrimitiveTag code) = (ContextSpecific, Primitive, code)
  /\ tag_fields (NewContextSpecificConstructorTag code) = (ContextSpecific, Constructor, code)
  /\ tag_fields (NewPrivatePrimitiveTag code) = (Private, Primitive, code)
  /\ tag_fields (NewPrivateConstructorTag code) = (Private, Constructor, code).
Proof.
  intros Hcode.
  repeat split; apply tag_fields_in_range; (assumption || (cbv; split; discriminate)).
Qed.

Lemma named_tag_constructors_witness :
  tag_fields (NewUniversalPrimitiveTag 4) = (Universal, Primitive, 4)
  /\ tag_fields (NewUniversalConstructorTag 4) = (Universal, Constructor, 4)
  /\ tag_fields (NewApplicationWidePrimitiveTag 4) = (ApplicationWide, Primitive, 4)
  /\ tag_fields (NewApplicationWideConstructorTag 4) = (ApplicationWide, Constructor, 4)
  /\ tag_fields (NewContextSpecificPrimitiveTag 4) = (ContextSpecific, Primitive, 4)
  /\ tag_fields (NewContextSpecificConstructorTag 4) = (ContextSpecific, Constructor, 4)
  /\ tag_fields (NewPrivatePrimitiveTag 4) = (Private, Primitive, 4)
  /\ tag_fields (NewPrivateConstructorTag 4) = (Private, Constructor, 4).
Proof. apply (named_tag_constructors 4). lia. Defined.

(** ** The length decoder of util.go *)

Lemma land_low7 (x : Z) : 128 <= x < 256 -> Z.land x 127 = x - 128.
Proof.
  intros Hx.
  assert (H : all_below 128 (fun k => Z.land (128 + k) 127 =? k) = true)
    by (vm_compute; reflexivity).
  pose proof (all_below_spec _ _ H (x - 128) ltac:(lia)) as Hk.
  apply Z.eqb_eq in Hk. replace (128 + (x - 128)) with x in Hk by lia. exact Hk.
Qed.

(** The [uint32] accumulation keeps the low 32 bits of the big-endian
    value, however many octets it reads. *)
Lemma accumulate_wraps (l : list byte) : accumulate l = be_value l mod 2 ^ 32.
Proof.
  induction l as [|x l IH] using rev_ind; [reflexivity|].
  rewrite be_value_snoc. unfold accumulate. rewrite fold_left_app. cbn [fold_left].
  fold (accumulate l). rewrite IH. clear IH.
  pose proof (be_value_bounds l) as [HB _]. pose proof (u8_range x) as Hx.
  set (B := be_value l) in *.
  change (2 ^ 32) with 4294967296.
  assert (Hq := Z.div_mod B 16777216 ltac:(lia)).
  assert (Hr := Z.mod_pos_bound B 16777216 ltac:(lia)).
  assert (Hq' := Z.div_mod B 4294967296 ltac:(lia)).
  assert (Hr' := Z.mod_pos_bound B 4294967296 ltac:(lia)).
  assert (E : uint32 (Z.shiftl (B mod 4294967296) 8) = Z.shiftl (B mod 16777216) 8).
  { unfold uint32. rewrite !Z.shiftl_mul_pow2 by lia.
    change (2 ^ 8) with 256. change (2 ^ 32) with 4294967296.
    symmetry. apply Z.mod_unique_pos with (q := (B mod 4294967296) / 16777216); [lia|].
    assert (Hs := Z.div_mod (B mod 4294967296) 16777216 ltac:(lia)).
    assert (Hm : (B mod 4294967296) mod 16777216 = B mod 16777216).
    { symmetry. apply Z.mod_unique_pos
        with (q := B / 16777216 - 256 * (B / 4294967296)); lia. }
    lia. }
  rewrite E, lor_shiftl8 by lia.
  apply Z.mod_unique_pos with (q := B / 16777216); lia.
Qed.

(** X3. What [UnmarshalAsn1ElementLength] of util.go returns, for every
    buffer.  Without an error: the buffer holds the length field
    ([1 + consumed <= len(b)]), the length is a [uint32], and one byte is
    consumed for a short-form header, one plus the announced number of
    octets for a long-form one.  With an error: the consumed count is 0,
    the length is 0 or -1, and the buffer has fewer than two bytes, or
    its header byte is [0x80], or it announces more octets than follow. *)
Theorem decoder_outcome (b : list byte) :
  let b1 := u8 (nth 1 b Byte.x00) in
  match Util.UnmarshalAsn1ElementLength b with
  | (n, c, None) =>
      2 <= len b /\ 0 <= n < 2 ^ 32 /\ 1 + c <= len b
      /\ (b1 <= 127 -> n = b1 /\ c = 1)
      /\ (127 < b1 -> c = 1 + (b1 - 128))
  | (n, c, Some _) =>
      c = 0 /\ -1 <= n <= 0
      /\ (len b < 2 \/ b1 = 128 \/ (128 < b1 /\ len b < 2 + (b1 - 128)))
  end.
Proof.
  cbv zeta. unfold Util.UnmarshalAsn1ElementLength.
  pose proof (u8_range (nth 1 b Byte.x00)) as Hb1.
  destruct (Z.ltb_spec (len b) 2); [repeat split; lia|].
  destruct (Z.leb_spec (u8 (nth 1 b Byte.x00)) 127).
  { repeat split; lia. }
  rewrite land_low7 by lia.
  destruct (Z.eqb_spec (u8 (nth 1 b Byte.x00) - 128) 0); [repeat split; lia|].
  destruct (Z.ltb_spec (len b) (2 + (u8 (nth 1 b Byte.x00) - 128)));
    [repeat split; lia|].
  pose proof (accumulate_range
                (firstn (Z.to_nat (u8 (nth 1 b Byte.x00) - 128)) (skipn 2 b))).
  repeat split; lia.
Qed.

Lemma decode_app (b rest : list byte) (n c : Z) :
  Util.UnmarshalAsn1ElementLength b = (n, c, None) ->
  Util.UnmarshalAsn1ElementLength (b ++ rest) = (n, c, None).
Proof.
  unfold Util.UnmarshalAsn1ElementLength. rewrite len_app.
  pose proof (len_nonneg rest).
  destruct (Z.ltb_spec (len b) 2); [discriminate|].
  destruct (Z.ltb_spec (len b + len rest) 2); [lia|].
  rewrite (app_nth1 b rest) by (unfold len in *; lia).
  destruct (u8 (nth 1 b Byte.x00) <=? 127); [exact (fun H => H)|].
  destruct (Z.land (u8 (nth 1 b Byte.x00)) 127 =? 0); [discriminate|].
  destruct (Z.ltb_spec (len b) (2 + Z.land (u8 (nth 1 b Byte.x00)) 127));
    [discriminate|].
  destruct (Z.ltb_spec (len b + len rest) (2 + Z.land (u8 (nth 1 b Byte.x00)) 127));
    [lia|].
  rewrite skipn_app, firstn_app.
  replace (2 - length b)%nat with 0%nat by (unfold len in *; lia).
  replace (Z.to_nat (Z.land (u8 (nth 1 b Byte.x00)) 127) - length (skipn 2 b))%nat
    with 0%nat by (rewrite length_skipn; unfold len in *; lia).
  cbn [skipn firstn]. rewrite app_nil_r. exact (fun H => H).
Qed.

(** X4. The decoder reads the length field only: bytes that follow a
    buffer it decodes without an error do not change its result. *)
Theorem decoder_ignores_trailing_bytes (b rest : list byte) (n c : Z) :
  Util.UnmarshalAsn1ElementLength b = (n, c, None) ->
  Util.UnmarshalAsn1ElementLength (b ++ rest) = (n, c, None).
Proof. apply decode_app. Qed.

Lemma decoder_ignores_trailing_bytes_witness :
  Util.UnmarshalAsn1ElementLength
    ([Byte.x04; Byte.x82; Byte.x01; Byte.x2c] ++ [Byte.xaa; Byte.xbb])
  = (300, 3, None).
Proof.
  apply (decoder_ignores_trailing_bytes
           [Byte.x04; Byte.x82; Byte.x01; Byte.x2c] [Byte.xaa; Byte.xbb] 300 3).
  reflexivity.
Defined.

Lemma decode_long_form_wraps (t h : byte) (octets rest : list byte) :
  1 <= len octets <= 127 -> u8 h = 128 + len octets ->
  Util.UnmarshalAsn1ElementLength (t :: h :: octets ++ rest)
  = (be_value octets mod 2 ^ 32, 1 + len octets, None).
Proof.
  intros Hk Hh. unfold Util.UnmarshalAsn1ElementLength.
  rewrite !len_cons, len_app. pose proof (len_nonneg rest).
  destruct (Z.ltb_spec (1 + (1 + (len octets + len rest))) 2); [lia|]. cbn [nth].
  rewrite Hh, land_low7 by lia.
  replace (128 + len octets - 128) with (len octets) by lia.
  destruct (Z.leb_spec (128 + len octets) 127); [lia|].
  destruct (Z.eqb_spec (len octets) 0); [lia|].
  destruct (Z.ltb_spec (1 + (1 + (len octets + len rest))) (2 + len octets)); [lia|].
  cbn [skipn]. unfold len at 1. rewrite Nat2Z.id, firstn_app, Nat.sub_diag.
  cbn [firstn]. rewrite app_nil_r, firstn_all, accumulate_wraps. reflexivity.
Qed.

(** X5. A long-form header may announce any number of octets from 1 to
    127, with or without leading zeros: the decoder consumes them all and
    returns the low 32 bits of the big-endian integer they denote. *)
Theorem decoder_long_form_any_width (t h : byte) (octets rest : list byte) :
  1 <= len octets <= 127 -> u8 h = 128 + len octets ->
  Util.UnmarshalAsn1ElementLength (t :: h :: octets ++ rest)
  = (be_value octets mod 2 ^ 32, 1 + len octets, None).
Proof. apply decode_long_form_wraps. Qed.

Lemma decoder_long_form_any_width_witness :
  Util.UnmarshalAsn1ElementLength
    (Byte.x04 :: Byte.x85 :: [Byte.x01; Byte.x00; Byte.x00; Byte.x01; Byte.x2c] ++ [Byte.xaa])
  = (be_value [Byte.x01; Byte.x00; Byte.x00; Byte.x01; Byte.x2c] mod 2 ^ 32,
     1 + len [Byte.x01; Byte.x00; Byte.x00; Byte.x01; Byte.x2c], None).
Proof.
  apply (decoder_long_form_any_width Byte.x04 Byte.x85
           [Byte.x01; Byte.x00; Byte.x00; Byte.x01; Byte.x2c] [Byte.xaa]).
  - cbn. lia.
  - reflexivity.
Defined.

(** ** The length encoder *)

(** The long form for any [int] above 127: the octets denote the low 32
    bits of the length. *)
Lemma Marshal_long_form_wraps (n : Z) :
  127 < n -> uint32 n <> 0 ->
  exists octets,
    MarshalAsn1ElementLength n = to_byte (Z.lor 128 (len octets)) :: octets
    /\ u8 (to_byte (Z.lor 128 (len octets))) = 128 + len octets
    /\ be_value octets = uint32 n
    /\ 1 <= len octets <= 4.
Proof.
  intros Hn Hu. unfold MarshalAsn1ElementLength.
  destruct (Z.leb_spec n 127); [lia|]. cbv zeta.
  pose proof (uint32_range n) as Hr.
  destruct (valBytes_loop_spec 4 (uint32 n) Hr) as (Hv & Hl & _ & Hnz).
  set (octets := valBytes_loop 4 (uint32 n) []) in *.
  specialize (Hnz ltac:(lia)).
  assert (Hk : 1 <= len octets <= 4).
  { split; [|exact Hl]. destruct octets; [destruct Hnz|]. rewrite len_cons.
    pose proof (len_nonneg octets). lia. }
  exists octets.
  assert (Hcase : len octets = 1 \/ len octets = 2 \/ len octets = 3 \/ len octets = 4) by lia.
  repeat split; try assumption; try lia;
    destruct Hcase as [E|[E|[E|E]]]; rewrite E; reflexivity.
Qed.

(** X6. Lengths that do not fit a [uint32] are encoded by their low 32
    bits, without an error: for every [n > 127] the decoder reads
    [n mod 2^32] back from [MarshalAsn1ElementLength n], except when
    [n mod 2^32 = 0], where the encoding is the single byte [0x80] and the
    decoder rejects it as an indefinite length. *)
Theorem encoder_keeps_low_32_bits (n : Z) (tag : byte) (rest : list byte) :
  127 < n ->
  (n mod 2 ^ 32 <> 0 ->
   Util.UnmarshalAsn1ElementLength (tag :: MarshalAsn1ElementLength n ++ rest)
   = (n mod 2 ^ 32, len (MarshalAsn1ElementLength n), None))
  /\ (n mod 2 ^ 32 = 0 ->
      MarshalAsn1ElementLength n = [Byte.x80]
      /\ Util.UnmarshalAsn1ElementLength (tag :: MarshalAsn1ElementLength n ++ rest)
         = (-1, 0, Some ErrIndefinite)).
Proof.
  intros Hn. split; intros Hmod.
  - destruct (Marshal_long_form_wraps n Hn Hmod) as (octets & E & Hh & Hv & Hk).
    rewrite E. cbn [app].
    rewrite decode_long_form_wraps by (assumption || lia).
    rewrite Hv, len_cons. unfold uint32. rewrite Z.mod_mod by lia. reflexivity.
  - assert (E : MarshalAsn1ElementLength n = [Byte.x80]).
    { unfold MarshalAsn1ElementLength. destruct (Z.leb_spec n 127); [lia|].
      unfold uint32. rewrite Hmod. reflexivity. }
    rewrite E. split; [reflexivity|]. cbn [app].
    apply decode_indefinite; [|reflexivity].
    rewrite !len_cons. pose proof (len_nonneg rest). lia.
Qed.

Lemma encoder_keeps_low_32_bits_witness :
  (4294967301 mod 2 ^ 32 <> 0 ->
   Util.UnmarshalAsn1ElementLength (Byte.x04 :: MarshalAsn1ElementLength 4294967301 ++ [])
   = (4294967301 mod 2 ^ 32, len (MarshalAsn1ElementLength 4294967301), None))
  /\ (4294967301 mod 2 ^ 32 = 0 ->
      MarshalAsn1ElementLength 4294967301 = [Byte.x80]
      /\ Util.UnmarshalAsn1ElementLength (Byte.x04 :: MarshalAsn1ElementLength 4294967301 ++ [])
         = (-1, 0, Some ErrIndefinite)).
Proof. apply (encoder_keeps_low_32_bits 4294967301 Byte.x04 []). lia. Defined.

(** The round trip through util.go's decoder, with bytes after the
    header. *)
Lemma decode_Marshal_rest (n : Z) (tag : byte) (rest : list byte) :
  0 <= n < 2 ^ 32 ->
  Util.UnmarshalAsn1ElementLength (tag :: MarshalAsn1ElementLength n ++ rest)
  = (n, len (MarshalAsn1ElementLength n), None).
Proof.
  intros Hn. destruct (Z.le_gt_cases n 127) as [Hs|Hl].
  - assert (E : MarshalAsn1ElementLength n = [to_byte n]).
    { unfold MarshalAsn1ElementLength. destruct (Z.leb_spec n 127); [reflexivity|lia]. }
    assert (Ev : u8 (to_byte n) = n) by (rewrite u8_to_byte; apply Z.mod_small; lia).
    rewrite E. cbn [app]. rewrite decode_short_form by lia. rewrite Ev. reflexivity.
  - destruct (Marshal_long_form n ltac:(lia)) as (octets & E & Hh & Hland & Hv & _ & Hk).
    rewrite E. cbn [app].
    rewrite decode_long_form, Hv, len_cons by assumption. reflexivity.
Qed.

(** X7. On [0, 2^32-1] the length headers are prefix-free: if the header
    of [m] starts with the header of [n], then [m = n].  In particular
    the encoder is injective there. *)
Theorem length_headers_prefix_free (n m : Z) (rest : list byte) :
  0 <= n < 2 ^ 32 -> 0 <= m < 2 ^ 32 ->
  MarshalAsn1ElementLength m = MarshalAsn1ElementLength n ++ rest ->
  m = n /\ rest = [].
Proof.
  intros Hn Hm E.
  pose proof (decode_Marshal_rest n Byte.x00 rest Hn) as Dn.
  pose proof (decode_Marshal_rest m Byte.x00 [] Hm) as Dm.
  rewrite app_nil_r, E, Dn in Dm. injection Dm as Hnm Hlen.
  split; [congruence|].
  rewrite len_app in Hlen. destruct rest; [reflexivity|].
  rewrite len_cons in Hlen. pose proof (len_nonneg rest). lia.
Qed.

Lemma length_headers_prefix_free_witness :
  MarshalAsn1ElementLength 300 = MarshalAsn1ElementLength 300 ++ []
  /\ (300 = 300 /\ @nil byte = []).
Proof.
  split; [reflexivity|].
  apply (length_headers_prefix_free 300 300 []); [lia|lia|reflexivity].
Defined.

(** ** Serialisation *)

(** X8. [MarshalBinary] of an element built by [NewIE] never fails,
    whatever the tag and the value: it returns exactly [MarshalLen()]
    bytes, the tag first, then the first byte of the length header, then
    the value from offset 2 on. *)
Theorem MarshalBinary_size_and_offsets (tag : Tag) (v : list byte) :
  exists enc,
    MarshalBinary (NewIE tag v) = Ret (enc, None)
    /\ len enc = MarshalLen (NewIE tag v)
    /\ firstn 2 enc = [tag; hd Byte.x00 (MarshalAsn1ElementLength (len v))]
    /\ firstn (length v) (skipn 2 enc) = v.
Proof.
  eexists. split; [apply MarshalBinary_writes|].
  destruct (Marshal_shape (len v)) as (h & rest & E & _ & _).
  rewrite MarshalLen_NewIE, E. cbn [hd tl firstn skipn].
  repeat split.
  - rewrite !len_cons, len_app. unfold len. rewrite repeat_length. cbn [length]. lia.
  - rewrite firstn_app, Nat.sub_diag, firstn_all. cbn [firstn]. apply app_nil_r.
Qed.

(** X9. [MarshalTo] refuses a buffer shorter than [MarshalLen()] and
    leaves it as it was: with [io.ErrUnexpectedEOF] when the buffer has
    fewer than two bytes, with [io.ErrShortBuffer] otherwise. *)
Theorem MarshalTo_short_buffer (tag : Tag) (v b : list byte) :
  len b < MarshalLen (NewIE tag v) ->
  MarshalTo (NewIE tag v) b =
  Ret (b, Some (if len b <? 2 then ErrUnexpectedEOF else ErrShortBuffer)).
Proof.
  intros Hb. rewrite MarshalLen_NewIE in Hb. unfold MarshalTo.
  cbn [Length Value NewIE SetLength set_Length].
  destruct (len b <? 2); [reflexivity|].
  destruct (Z.ltb_spec (len b) (1 + len (MarshalAsn1ElementLength (len v)) + len v));
    [reflexivity|lia].
Qed.

Lemma MarshalTo_short_buffer_witness :
  MarshalTo (NewIE Byte.x04 [Byte.xaa; Byte.xbb]) [Byte.x01; Byte.x02; Byte.x03] =
  Ret ([Byte.x01; Byte.x02; Byte.x03],
       Some (if len [Byte.x01; Byte.x02; Byte.x03] <? 2
             then ErrUnexpectedEOF else ErrShortBuffer)).
Proof.
  apply (MarshalTo_short_buffer Byte.x04 [Byte.xaa; Byte.xbb]
           [Byte.x01; Byte.x02; Byte.x03]).
  vm_compute. reflexivity.
Defined.

(** X10. On a buffer of at least [MarshalLen()] bytes [MarshalTo]
    succeeds, keeps the length of the buffer, and writes nothing at or
    behind index [MarshalLen()]. *)
Theorem MarshalTo_frame (tag : Tag) (v b : list byte) :
  MarshalLen (NewIE tag v) <= len b ->
  exists b',
    MarshalTo (NewIE tag v) b = Ret (b', None)
    /\ len b' = len b
    /\ skipn (Z.to_nat (MarshalLen (NewIE tag v))) b'
       = skipn (Z.to_nat (MarshalLen (NewIE tag v))) b.
Proof.
  intros Hb. eexists. split; [apply MarshalTo_writes; exact Hb|].
  rewrite MarshalLen_NewIE in *.
  destruct (Marshal_shape (len v)) as (h & rest & E & _ & _).
  rewrite E in *. cbn [hd]. unfold len in *. cbn [length] in *.
  destruct b as [|b0 [|b1 b']]; cbn [length] in *; try lia.
  replace (Z.to_nat (1 + Z.of_nat (S (length rest)) + Z.of_nat (length v)))
    with (S (S (length v + length rest))) by lia.
  cbn [Nat.add skipn length]. rewrite length_app, length_skipn. split; [lia|].
  rewrite skipn_app, (skipn_all2 v) by lia.
  cbn [app]. rewrite skipn_skipn. f_equal. lia.
Qed.

Lemma MarshalTo_frame_witness :
  exists b',
    MarshalTo (NewIE Byte.x04 [Byte.xaa])
              [Byte.x01; Byte.x02; Byte.x03; Byte.x05; Byte.x06] = Ret (b', None)
    /\ len b' = len [Byte.x01; Byte.x02; Byte.x03; Byte.x05; Byte.x06]
    /\ skipn (Z.to_nat (MarshalLen (NewIE Byte.x04 [Byte.xaa]))) b'
       = skipn (Z.to_nat (MarshalLen (NewIE Byte.x04 [Byte.xaa])))
               [Byte.x01; Byte.x02; Byte.x03; Byte.x05; Byte.x06].
Proof.
  apply (MarshalTo_frame Byte.x04 [Byte.xaa]
           [Byte.x01; Byte.x02; Byte.x03; Byte.x05; Byte.x06]).
  vm_compute. discriminate.
Defined.

(** ** The flat sequence parser *)

(** The element a successful [ParseIE] returns. *)
Lemma ParseIE_success_shape (b : list byte) (i : IE) :
  ParseIE b = Ret (Some i, None) ->
  i = mkIE (nth 0 b Byte.x00) (Length i)
           (firstn (Z.to_nat (Length i)) (skipn 2 b)) []
  /\ flat_element i.
Proof.
  intros Hp. destruct (ParseIE_success b i Hp) as (Hb & Hdec & H0 & H2).
  unfold ParseIE in Hp.
  rewrite (UnmarshalBinary_decoded zeroIE b _ _ Hb Hdec) in Hp.
  destruct (Z.ltb_spec (len b) (2 + Length i)); [lia|].
  rewrite slice_ok in Hp by lia. cbn [bind snd fst] in Hp.
  replace (2 + Length i - 2) with (Length i) in Hp by lia.
  change (Z.to_nat 2) with 2%nat in Hp. cbn [iIE zeroIE] in Hp.
  injection Hp as Hi.
  change (match b with | _ :: _ :: l0 => l0 | _ => [] end) with (skipn 2 b) in Hi.
  split; [congruence|].
  rewrite <- Hi. unfold flat_element. cbn [Length Value iIE]. split; [|reflexivity].
  unfold len in *. rewrite length_firstn, length_skipn. lia.
Qed.

Lemma ParseIE_never_nil (b : list byte) : ParseIE b <> Ret (None, None).
Proof.
  destruct (UnmarshalBinary_returns zeroIE b) as (i' & e & H & _).
  unfold ParseIE. rewrite H. cbn [bind snd fst]. destruct e; discriminate.
Qed.

Lemma ParseMultiIEs_loop_fuel_indep (f1 : nat) :
  forall (f2 : nat) (acc : list IE) (b : list byte),
    (length b < f1)%nat -> (length b < f2)%nat ->
    ParseMultiIEs_loop f1 acc b = ParseMultiIEs_loop f2 acc b.
Proof.
  induction f1 as [|f1 IH]; intros f2 acc b H1 H2; [lia|].
  destruct f2 as [|f2]; [lia|]. cbn [ParseMultiIEs_loop].
  destruct (len b =? 0); [reflexivity|].
  destruct (ParseIE b) as [[[i|] [e|]]| |] eqn:Hp; cbn [bind]; try reflexivity.
  pose proof (ParseIE_success b i Hp) as (_ & _ & H0 & _).
  pose proof (MarshalLen_lower i H0).
  destruct (Z.le_gt_cases (MarshalLen i) (len b)).
  - rewrite slice_from_ok by lia. cbn [bind].
    apply IH; rewrite length_skipn; unfold len in *; lia.
  - rewrite slice_from_panic by lia. reflexivity.
Qed.

Lemma ParseMultiIEs_loop_acc (fuel : nat) :
  forall (acc : list IE) (b : list byte),
    ParseMultiIEs_loop fuel acc b =
    r <- ParseMultiIEs_loop fuel [] b ;;
    Ret (match snd r with
         | Some e => ([], Some e)
         | None => (acc ++ fst r, None)
         end).
Proof.
  induction fuel as [|fuel IH]; intros acc b; [reflexivity|].
  cbn [ParseMultiIEs_loop]. destruct (len b =? 0).
  { cbn [bind snd fst]. rewrite app_nil_r. reflexivity. }
  destruct (ParseIE b) as [[[i|] [e|]]| |]; cbn [bind snd fst]; try reflexivity.
  destruct (slice_from b (MarshalLen i)) as [b'| |]; cbn [bind]; try reflexivity.
  rewrite (IH (acc ++ [i])), (IH ([] ++ [i])).
  destruct (ParseMultiIEs_loop fuel [] b') as [[x [e|]]| |]; cbn [bind snd fst];
    try reflexivity.
  rewrite <- app_assoc. reflexivity.
Qed.

(** X11. [ParseMultiIEs] is the flat single-element parser iterated: on a
    non-empty buffer, an error of [ParseIE] on the front element is
    returned with no elements; an element [i] parsed there is followed by
    the parse of [b[i.MarshalLen():]], whose error, if any, replaces the
    whole result. *)
Theorem flat_sequence_unfolds (b : list byte) :
  b <> [] ->
  (forall e, ParseIE b = Ret (None, Some e) -> ParseMultiIEs b = Ret ([], Some e))
  /\ (forall i, ParseIE b = Ret (Some i, None) ->
        ParseMultiIEs b =
        (rest <- slice_from b (MarshalLen i) ;;
         r <- ParseMultiIEs rest ;;
         Ret (match snd r with
              | Some e => ([], Some e)
              | None => (i :: fst r, None)
              end))).
Proof.
  intros Hne.
  assert (Hlen : len b <> 0).
  { destruct b as [|x b']; [congruence|]. rewrite len_cons.
    pose proof (len_nonneg b'). lia. }
  split.
  - intros e Hp. unfold ParseMultiIEs. cbn [ParseMultiIEs_loop].
    destruct (Z.eqb_spec (len b) 0); [lia|]. rewrite Hp. reflexivity.
  - intros i Hp. unfold ParseMultiIEs at 1. cbn [ParseMultiIEs_loop].
    destruct (Z.eqb_spec (len b) 0); [lia|]. rewrite Hp. cbn [bind].
    pose proof (ParseIE_success b i Hp) as (_ & _ & H0 & _).
    pose proof (MarshalLen_lower i H0).
    destruct (Z.le_gt_cases (MarshalLen i) (len b)).
    + rewrite slice_from_ok by lia. cbn [bind].
      rewrite ParseMultiIEs_loop_acc. unfold ParseMultiIEs.
      rewrite (ParseMultiIEs_loop_fuel_indep (length b)
                 (S (length (skipn (Z.to_nat (MarshalLen i)) b))))
        by (rewrite ?length_skipn; unfold len in *; lia).
      reflexivity.
    + rewrite slice_from_panic by lia. reflexivity.
Qed.

Lemma flat_sequence_unfolds_witness :
  (forall e, ParseIE [Byte.x04; Byte.x01; Byte.xaa; Byte.x05] = Ret (None, Some e) ->
             ParseMultiIEs [Byte.x04; Byte.x01; Byte.xaa; Byte.x05] = Ret ([], Some e))
  /\ (forall i, ParseIE [Byte.x04; Byte.x01; Byte.xaa; Byte.x05] = Ret (Some i, None) ->
        ParseMultiIEs [Byte.x04; Byte.x01; Byte.xaa; Byte.x05] =
        (rest <- slice_from [Byte.x04; Byte.x01; Byte.xaa; Byte.x05] (MarshalLen i) ;;
         r <- ParseMultiIEs rest ;;
         Ret (match snd r with
              | Some e => ([], Some e)
              | None => (i :: fst r, None)
              end))).
Proof.
  apply (flat_sequence_unfolds [Byte.x04; Byte.x01; Byte.xaa; Byte.x05]).
  discriminate.
Defined.

(** The outcomes of the loop of [ParseMultiIEs], by induction on its
    fuel. *)
Lemma ParseMultiIEs_loop_outcomes (fuel : nat) :
  forall (acc : list IE) (b : list byte),
    (forall ies, ParseMultiIEs_loop fuel acc b = Ret (ies, None) ->
       exists tl, ies = acc ++ tl /\ total_len tl = len b /\ Forall flat_element tl)
    /\ (forall ies e, ParseMultiIEs_loop fuel acc b = Ret (ies, Some e) -> ies = [])
    /\ (ParseMultiIEs_loop fuel acc b = Panic ->
        exists pre rest i,
          b = pre ++ rest /\ ParseIE rest = Ret (Some i, None)
          /\ 127 < Length i /\ len rest < MarshalLen i).
Proof.
  induction fuel as [|fuel IH]; intros acc b.
  { cbn. repeat split; intros; discriminate. }
  cbn [ParseMultiIEs_loop]. destruct (Z.eqb_spec (len b) 0) as [Hz|Hnz].
  { repeat split; try discriminate.
    intros ies [= <-]. exists []. rewrite app_nil_r. repeat split; [|constructor].
    cbn. lia. }
  destruct (ParseIE b) as [[[i|] [e|]]| |] eqn:Hp; cbn [bind].
  - repeat split; try discriminate. intros ies e' [= <- _]. reflexivity.
  - pose proof (ParseIE_success b i Hp) as (_ & _ & H0 & _).
    pose proof (MarshalLen_lower i H0) as Hm.
    destruct (ParseIE_success_shape b i Hp) as (_ & Hflat).
    destruct (Z.le_gt_cases (MarshalLen i) (len b)) as [Hin|Hout].
    + rewrite slice_from_ok by lia. cbn [bind].
      set (rest := skipn (Z.to_nat (MarshalLen i)) b).
      assert (Hrest : len rest = len b - MarshalLen i)
        by (unfold rest, len in *; rewrite length_skipn; lia).
      destruct (IH (acc ++ [i]) rest) as (Hok & Herr & Hpanic).
      split; [|split].
      * intros ies Hl. destruct (Hok ies Hl) as (tl & -> & Htl & Hall).
        exists (i :: tl). rewrite <- app_assoc. split; [reflexivity|].
        split; [|constructor; assumption].
        cbn [total_len fold_right]. fold (total_len tl). lia.
      * exact Herr.
      * intros Hl. destruct (Hpanic Hl) as (pre & rest' & i' & E & Hrest').
        exists (firstn (Z.to_nat (MarshalLen i)) b ++ pre), rest', i'.
        split; [|exact Hrest'].
        rewrite <- app_assoc, <- E. symmetry. apply firstn_skipn.
    + rewrite slice_from_panic by lia. repeat split; try discriminate.
      intros _. exists [], b, i. repeat split; try assumption.
      destruct (Z.le_gt_cases (Length i) 127) as [Hs|]; [|assumption].
      pose proof (ParseIE_advance_short b i Hp Hs). lia.
  - repeat split; try discriminate. intros ies e' [= <- _]. reflexivity.
  - exfalso. exact (ParseIE_never_nil b Hp).
  - destruct (ParseIE_returns b) as (r & Hr). congruence.
  - destruct (ParseIE_returns b) as (r & Hr). congruence.
Qed.

(** X12. When [ParseMultiIEs] succeeds, the elements it returns account
    for every byte of the input (their [MarshalLen()] add up to
    [len(b)]), each has a length equal to that of its value, and none has
    children; when it fails, it returns no elements. *)
Theorem flat_sequence_result (b : list byte) (ies : list IE) (e : option error) :
  ParseMultiIEs b = Ret (ies, e) ->
  match e with
  | None => total_len ies = len b /\ Forall flat_element ies
  | Some _ => ies = []
  end.
Proof.
  unfold ParseMultiIEs. intros H.
  destruct (ParseMultiIEs_loop_outcomes (S (length b)) [] b) as (Hok & Herr & _).
  destruct e as [err|].
  - exact (Herr _ _ H).
  - destruct (Hok _ H) as (tl & -> & Htl & Hall). split; assumption.
Qed.

Lemma flat_sequence_result_witness :
  total_len [mkIE Byte.x04 1 [Byte.xaa] []; mkIE Byte.x30 2 [Byte.x05; Byte.x00] []]
  = len [Byte.x04; Byte.x01; Byte.xaa; Byte.x30; Byte.x02; Byte.x05; Byte.x00]
  /\ Forall flat_element
            [mkIE Byte.x04 1 [Byte.xaa] []; mkIE Byte.x30 2 [Byte.x05; Byte.x00] []].
Proof.
  apply (flat_sequence_result
           [Byte.x04; Byte.x01; Byte.xaa; Byte.x30; Byte.x02; Byte.x05; Byte.x00]
           [mkIE Byte.x04 1 [Byte.xaa] []; mkIE Byte.x30 2 [Byte.x05; Byte.x00] []]
           None).
  reflexivity.
Defined.

(** X13. [ParseMultiIEs] panics only on a long-form element: if it
    panics, some suffix of the input starts with an element that
    [ParseIE] accepts with a decoded length above 127 and whose
    [MarshalLen()] exceeds what is left of the buffer. *)
Theorem flat_sequence_panics_only_on_long_form (b : list byte) :
  ParseMultiIEs b = Panic ->
  exists pre rest i,
    b = pre ++ rest /\ ParseIE rest = Ret (Some i, None)
    /\ 127 < Length i /\ len rest < MarshalLen i.
Proof.
  unfold ParseMultiIEs. intros H.
  destruct (ParseMultiIEs_loop_outcomes (S (length b)) [] b) as (_ & _ & Hpanic).
  exact (Hpanic H).
Qed.

Lemma flat_sequence_panics_only_on_long_form_witness :
  exists pre rest i,
    [Byte.x04; Byte.x00; Byte.x04; Byte.x81; Byte.x80] ++ repeat Byte.x00 127
    = pre ++ rest
    /\ ParseIE rest = Ret (Some i, None)
    /\ 127 < Length i /\ len rest < MarshalLen i.
Proof.
  apply (flat_sequence_panics_only_on_long_form
           ([Byte.x04; Byte.x00; Byte.x04; Byte.x81; Byte.x80] ++ repeat Byte.x00 127)).
  vm_compute. reflexivity.
Defined.

(** X14. [ParseMultiIEs] terminates on every input: each round drops at
    least two bytes, so the loop never uses up a fuel above the length of
    the buffer, and its result is the same for every such fuel. *)
Theorem flat_sequence_terminates (b : list byte) (fuel : nat) :
  (length b < fuel)%nat ->
  ParseMultiIEs_loop fuel [] b = ParseMultiIEs b
  /\ ParseMultiIEs b <> OutOfFuel.
Proof.
  intros Hfuel. split.
  - apply ParseMultiIEs_loop_fuel_indep; lia.
  - apply ParseMultiIEs_loop_fuel. lia.
Qed.

Lemma flat_sequence_terminates_witness :
  ParseMultiIEs_loop 10 [] [Byte.x04; Byte.x01; Byte.xaa]
  = ParseMultiIEs [Byte.x04; Byte.x01; Byte.xaa]
  /\ ParseMultiIEs [Byte.x04; Byte.x01; Byte.xaa] <> OutOfFuel.
Proof.
  apply (flat_sequence_terminates [Byte.x04; Byte.x01; Byte.xaa] 10). cbn. lia.
Defined.

(** ** The recursive sequence parser *)

(** X15. [ParseAsBER] terminates on every input: each round and each level
    of nesting works on a strictly shorter buffer, so the loop never uses
    up a fuel above the length of the buffer, and its result is the same
    for every such fuel. *)
Theorem recursive_sequence_terminates (b : list byte) (fuel : nat) :
  (length b < fuel)%nat ->
  ParseAsBER_loop fuel [] b = ParseAsBER b
  /\ ParseAsBER b <> OutOfFuel.
Proof.
  intros Hfuel. split.
  - apply ParseAsBER_loop_fuel_indep; lia.
  - apply ParseAsBER_loop_fuel. lia.
Qed.

Lemma recursive_sequence_terminates_witness :
  ParseAsBER_loop 20 [] [Byte.x30; Byte.x03; Byte.x04; Byte.x01; Byte.xaa]
  = ParseAsBER [Byte.x30; Byte.x03; Byte.x04; Byte.x01; Byte.xaa]
  /\ ParseAsBER [Byte.x30; Byte.x03; Byte.x04; Byte.x01; Byte.xaa] <> OutOfFuel.
Proof.
  apply (recursive_sequence_terminates
           [Byte.x30; Byte.x03; Byte.x04; Byte.x01; Byte.xaa] 20).
  cbn. lia.
Defined.

(** [ParseIERecursive] on the encoding of a short primitive element,
    followed by anything: the value may be empty. *)
Lemma ParseIERecursive_with_encoded
      (rec : list byte -> run (list IE * option error))
      (tag : Tag) (v rest : list byte) :
  Form tag = Primitive -> len v <= 127 ->
  ParseIERecursive_with rec (tag :: to_byte (len v) :: v ++ rest)
  = Ret (Some (NewIE tag v), None).
Proof.
  intros Hform Hv. pose proof (len_nonneg v). pose proof (len_nonneg rest).
  set (b := tag :: to_byte (len v) :: v ++ rest).
  assert (Hb : len b = 2 + len v + len rest)
    by (unfold b; rewrite !len_cons, len_app; lia).
  assert (Hu : u8 (to_byte (len v)) = len v)
    by (rewrite u8_to_byte; apply Z.mod_small; lia).
  assert (Hd : UnmarshalAsn1ElementLength b = Ret (len v, None)).
  { rewrite decoders_agree by lia. unfold b.
    rewrite decode_short_form by lia. rewrite Hu. reflexivity. }
  unfold ParseIERecursive_with.
  rewrite (ParseRecursive_with_decoded rec zeroIE b _ _ ltac:(lia) Hd). cbv zeta.
  destruct (Z.gtb_spec (len v + 2) (len b)); [lia|].
  rewrite slice_ok by lia. cbn [bind].
  change (Z.to_nat 2) with 2%nat. unfold b. cbn [nth skipn].
  rewrite Hform. cbn [Primitive Z.eqb bind snd fst].
  replace (Z.to_nat (2 + len v - 2)) with (length v) by (unfold len; lia).
  rewrite firstn_app, Nat.sub_diag, firstn_all. cbn [firstn]. rewrite app_nil_r.
  reflexivity.
Qed.

Lemma ParseAsBER_loop_encoded (l : list (Tag * list byte)) :
  Forall short_primitive l ->
  forall (fuel : nat) (acc : list IE),
    (length (concat (map short_encoding l)) < fuel)%nat ->
    ParseAsBER_loop fuel acc (concat (map short_encoding l))
    = Ret (acc ++ map element l, None).
Proof.
  induction l as [|[tag v] l IH]; intros Hall fuel acc Hfuel.
  - destruct fuel as [|fuel]; [lia|]. cbn. rewrite app_nil_r. reflexivity.
  - destruct fuel as [|fuel]; [lia|].
    inversion Hall as [|? ? [Hform Hv] Hall']; subst. cbn [fst snd] in Hform, Hv.
    cbn [map concat] in *. unfold short_encoding at 1. unfold short_encoding at 1 in Hfuel.
    cbn [fst snd app] in *.
    set (rest := concat (map short_encoding l)) in *.
    rewrite ParseAsBER_loop_step, len_cons.
    pose proof (len_nonneg (to_byte (len v) :: v ++ rest)).
    destruct (Z.eqb_spec (1 + len (to_byte (len v) :: v ++ rest)) 0); [lia|].
    rewrite ParseIERecursive_with_encoded by assumption. cbn [bind].
    unfold cursor_advance. cbn [iIE NewIE SetLength set_Length].
    rewrite MarshalLen_short by assumption.
    pose proof (len_nonneg v).
    rewrite slice_from_ok by (rewrite !len_cons, len_app; pose proof (len_nonneg rest); lia).
    replace (Z.to_nat (2 + len v)) with (2 + length v)%nat by (unfold len; lia).
    cbn [Nat.add skipn bind]. rewrite skipn_app, Nat.sub_diag, skipn_all. cbn [app skipn].
    rewrite IH.
    + rewrite <- app_assoc. reflexivity.
    + assumption.
    + cbn [length] in Hfuel. rewrite length_app in Hfuel. fold rest. lia.
Qed.

(** X16. The recursive sequence parser reads back every sequence of
    primitive elements with values of at most 127 bytes, empty values
    included, also in last position: [ParseAsBER] of the concatenated
    [MarshalBinary] encodings returns exactly those elements, in order. *)
Theorem recursive_sequence_round_trip (l : list (Tag * list byte)) :
  Forall short_primitive l ->
  exists encs,
    Forall2 (fun p enc => MarshalBinary (element p) = Ret (enc, None)) l encs
    /\ ParseAsBER (concat encs) = Ret (map element l, None).
Proof.
  intros Hall. exists (map short_encoding l). split.
  - induction Hall as [|[tag v] l [_ Hv] _ IH]; constructor; [|exact IH].
    apply MarshalBinary_short. exact Hv.
  - unfold ParseAsBER. rewrite ParseAsBER_loop_encoded by (auto; lia). reflexivity.
Qed.

Lemma recursive_sequence_round_trip_witness :
  exists encs,
    Forall2 (fun p enc => MarshalBinary (element p) = Ret (enc, None))
            [(Byte.x04, [Byte.xaa; Byte.xbb]); (Byte.x05, [])] encs
    /\ ParseAsBER (concat encs)
       = Ret (map element [(Byte.x04, [Byte.xaa; Byte.xbb]); (Byte.x05, [])], None).
Proof.
  apply (recursive_sequence_round_trip
           [(Byte.x04, [Byte.xaa; Byte.xbb]); (Byte.x05, [])]).
  repeat constructor; cbn; lia.
Defined.

Lemma MarshalLen_of_short (i : IE) : Length i <= 127 -> MarshalLen i = 2 + Length i.
Proof.
  intros H. unfold MarshalLen.
  destruct (Marshal_shape (Length i)) as (h & rest & E & _ & Hshort).
  destruct (Hshort H) as [_ ->]. rewrite E, len_one. lia.
Qed.

Lemma total_len_elements (l : list (Tag * list byte)) :
  Forall short_primitive l ->
  total_len (map element l) = len (concat (map short_encoding l)).
Proof.
  induction 1 as [|[tag v] l [_ Hv] _ IH]; [reflexivity|].
  cbn [map concat total_len fold_right]. fold (total_len (map element l)).
  rewrite IH, len_app. unfold element at 1, short_encoding at 2. cbn [fst snd] in *.
  rewrite MarshalLen_short, !len_cons by assumption. lia.
Qed.

(** [ParseIERecursive] on a constructed element whose value is a sequence
    of short primitive elements that the sequence parser reads back. *)
Lemma ParseIERecursive_with_constructed
      (rec : list byte -> run (list IE * option error))
      (tag : Tag) (content rest : list byte) (children : list IE) :
  Form tag = Constructor -> len content <= 127 ->
  rec content = Ret (children, None) ->
  ParseIERecursive_with rec (tag :: to_byte (len content) :: content ++ rest)
  = Ret (Some (mkIE tag (len content) content children), None).
Proof.
  intros Hform Hv Hrec. pose proof (len_nonneg content). pose proof (len_nonneg rest).
  set (b := tag :: to_byte (len content) :: content ++ rest).
  assert (Hb : len b = 2 + len content + len rest)
    by (unfold b; rewrite !len_cons, len_app; lia).
  assert (Hu : u8 (to_byte (len content)) = len content)
    by (rewrite u8_to_byte; apply Z.mod_small; lia).
  assert (Hd : UnmarshalAsn1ElementLength b = Ret (len content, None)).
  { rewrite decoders_agree by lia. unfold b.
    rewrite decode_short_form by lia. rewrite Hu. reflexivity. }
  unfold ParseIERecursive_with.
  rewrite (ParseRecursive_with_decoded rec zeroIE b _ _ ltac:(lia) Hd). cbv zeta.
  destruct (Z.gtb_spec (len content + 2) (len b)); [lia|].
  rewrite slice_ok by lia. cbn [bind].
  change (Z.to_nat 2) with 2%nat. unfold b. cbn [nth skipn].
  rewrite Hform. cbn [Constructor Z.eqb Pos.eqb].
  replace (Z.to_nat (2 + len content - 2)) with (length content) by (unfold len; lia).
  rewrite firstn_app, Nat.sub_diag, firstn_all. cbn [firstn]. rewrite app_nil_r.
  rewrite Hrec. reflexivity.
Qed.

(** X17. A constructed element whose value is the concatenation of the
    encodings of primitive elements (values of at most 127 bytes, at most
    127 bytes in all) parses recursively into one node that keeps the raw
    value and has exactly those elements as children, in encoding order. *)
Theorem constructed_element_children (tag : Tag) (l : list (Tag * list byte)) :
  Form tag = Constructor -> Forall short_primitive l ->
  len (concat (map short_encoding l)) <= 127 ->
  let content := concat (map short_encoding l) in
  let node := mkIE tag (len content) content (map element l) in
  MarshalBinary (NewIE tag content) = Ret (short_encoding (tag, content), None)
  /\ ParseIERecursive (short_encoding (tag, content)) = Ret (Some node, None)
  /\ ParseAsBER (short_encoding (tag, content)) = Ret ([node], None).
Proof.
  intros Hform Hall Hlen. cbv zeta.
  set (content := concat (map short_encoding l)) in *.
  set (node := mkIE tag (len content) content (map element l)).
  pose proof (len_nonneg content) as Hc0.
  unfold short_encoding. cbn [fst snd].
  split; [apply MarshalBinary_short; exact Hlen|]. split.
  - rewrite <- (app_nil_r content) at 2. unfold ParseIERecursive.
    apply ParseIERecursive_with_constructed; try assumption.
    unfold ParseAsBER, content.
    rewrite ParseAsBER_loop_encoded by (auto; lia). reflexivity.
  - unfold ParseAsBER. rewrite ParseAsBER_loop_step, !len_cons.
    destruct (Z.eqb_spec (1 + (1 + len content)) 0); [lia|].
    match goal with |- context [ParseIERecursive_with ?r _] =>
      pose proof (ParseIERecursive_with_constructed r tag content []
                    (map element l) Hform Hlen) as Hrec
    end.
    rewrite app_nil_r in Hrec. rewrite Hrec.
    2:{ unfold content. rewrite ParseAsBER_loop_encoded by (auto; cbn [length]; lia).
        reflexivity. }
    cbn [bind]. fold node.
    assert (Hm : MarshalLen node = 2 + len content)
      by (apply MarshalLen_of_short; exact Hlen).
    assert (Hadv : cursor_advance node = 2 + len content).
    { unfold cursor_advance. cbn [iIE node].
      destruct (map element l) as [|first others] eqn:E; [exact Hm|].
      destruct (MarshalLen first <? MarshalLen node - 2); [|exact Hm].
      rewrite <- E, total_len_elements by assumption. reflexivity. }
    rewrite Hadv.
    rewrite slice_from_ok by (rewrite !len_cons; lia).
    replace (Z.to_nat (2 + len content)) with (2 + length content)%nat
      by (unfold len; lia).
    cbn [Nat.add skipn bind length]. rewrite skipn_all.
    cbn [ParseAsBER_loop len length Z.of_nat Z.eqb app]. reflexivity.
Qed.

Lemma constructed_element_children_witness :
  let l := [(Byte.x04, [Byte.xaa]); (Byte.x05, [Byte.xbb])] in
  let content := concat (map short_encoding l) in
  let node := mkIE Byte.x30 (len content) content (map element l) in
  MarshalBinary (NewIE Byte.x30 content) = Ret (short_encoding (Byte.x30, content), None)
  /\ ParseIERecursive (short_encoding (Byte.x30, content)) = Ret (Some node, None)
  /\ ParseAsBER (short_encoding (Byte.x30, content)) = Ret ([node], None).
Proof.
  apply (constructed_element_children Byte.x30
           [(Byte.x04, [Byte.xaa]); (Byte.x05, [Byte.xbb])]).
  - reflexivity.
  - repeat constructor; cbn; lia.
  - cbn. lia.
Defined.

(** X18. [ParseRecursive] returns an error in two cases only: a buffer of
    fewer than two bytes ([io.ErrUnexpectedEOF], receiver untouched), and
    an error of the length decoder on the element's own header, which is
    handed on.  Once the header is decoded, no call that returns returns
    an error, whatever the value holds. *)
Theorem ParseRecursive_errors (i : IE) (b : list byte) :
  (len b < 2 -> ParseRecursive i b = Ret (i, Some ErrUnexpectedEOF))
  /\ (forall n err, 2 <= len b ->
        UnmarshalAsn1ElementLength b = Ret (n, Some err) ->
        ParseRecursive i b
        = Ret (mkIE (nth 0 b Byte.x00) n (Value i) (iIE i), Some err))
  /\ (forall n i' e, 2 <= len b ->
        UnmarshalAsn1ElementLength b = Ret (n, None) ->
        ParseRecursive i b = Ret (i', e) -> e = None).
Proof.
  unfold ParseRecursive. split; [apply ParseRecursive_with_short|]. split.
  - intros n err Hb Hdec.
    rewrite (ParseRecursive_with_decoded _ i b n _ Hb Hdec). reflexivity.
  - intros n i' e Hb Hdec.
    rewrite (ParseRecursive_with_decoded _ i b n _ Hb Hdec). cbv zeta.
    destruct (n + 2 >? len b); [intros [= _ <-]; reflexivity|].
    destruct (slice b 2 (2 + n)) as [v| |]; cbn [bind]; try discriminate.
    destruct (Form (nth 0 b Byte.x00) =? 1); [|intros [= _ <-]; reflexivity].
    destruct (ParseAsBER v) as [[x [err|]]| |]; cbn [bind snd fst]; try discriminate;
      intros [= _ <-]; reflexivity.
Qed.

(** The cases of [ParseRecursive_errors] on one byte, on an indefinite
    header, and on a constructed element whose value ends in a lone
    byte. *)
Lemma ParseRecursive_errors_witness :
  ParseRecursive zeroIE [Byte.x04] = Ret (zeroIE, Some ErrUnexpectedEOF)
  /\ ParseRecursive zeroIE [Byte.x04; Byte.x80]
     = Ret (mkIE Byte.x04 (-1) [] [], Some ErrIndefinite)
  /\ (forall i' e,
        ParseRecursive zeroIE [Byte.x30; Byte.x01; Byte.x04] = Ret (i', e) -> e = None).
Proof.
  split; [|split].
  - apply (ParseRecursive_errors zeroIE [Byte.x04]). cbn. lia.
  - apply (proj1 (proj2 (ParseRecursive_errors zeroIE [Byte.x04; Byte.x80]))
             (-1) ErrIndefinite); [cbn; lia|reflexivity].
  - intros i' e.
    apply (proj2 (proj2 (ParseRecursive_errors zeroIE [Byte.x30; Byte.x01; Byte.x04]))
             1 i' e); [cbn; lia|reflexivity].
Defined.

(** X19. The two single-element parsers agree on what they both read: if
    [ParseIE] accepts a buffer, [ParseIERecursive], when it returns,
    returns the same element with children added, and exactly the same
    element when the tag is primitive. *)
Theorem flat_and_recursive_agree (b : list byte) (i : IE) :
  ParseIE b = Ret (Some i, None) ->
  (Form (iTag i) = Primitive -> ParseIERecursive b = Ret (Some i, None))
  /\ (forall r, ParseIERecursive b = Ret r ->
        exists children, r = (Some (set_IE i children), None)).
Proof.
  intros Hp.
  destruct (ParseIE_success b i Hp) as (Hb & Hdec & H0 & H2).
  destruct (ParseIE_success_shape b i Hp) as (Hi & _).
  destruct i as [t n v cs]. cbn [iTag Length Value iIE] in *.
  injection Hi as Ht Hv Hcs. subst cs.
  change (match b with | _ :: _ :: l0 => l0 | _ => [] end) with (skipn 2 b) in Hv.
  unfold ParseIERecursive, ParseIERecursive_with.
  rewrite (ParseRecursive_with_decoded _ zeroIE b _ _ ltac:(lia) Hdec). cbv zeta.
  destruct (Z.gtb_spec (n + 2) (len b)); [lia|].
  rewrite slice_ok by lia. cbn [bind iIE zeroIE app].
  replace (2 + n - 2) with n by lia.
  change (Z.to_nat 2) with 2%nat.
  rewrite <- Ht, <- Hv. unfold set_IE. cbn [iTag Length Value]. split.
  - intros Hform. rewrite Hform. reflexivity.
  - intros r. destruct (Form t =? 1).
    + destruct (ParseAsBER v) as [[x [err|]]| |]; cbn [bind snd fst];
        try discriminate; intros [= <-]; eauto.
    + cbn [bind snd fst]. intros [= <-]. eauto.
Qed.

Lemma flat_and_recursive_agree_witness :
  (Form (iTag (mkIE Byte.x04 1 [Byte.xaa] [])) = Primitive ->
   ParseIERecursive [Byte.x04; Byte.x01; Byte.xaa; Byte.xbb]
   = Ret (Some (mkIE Byte.x04 1 [Byte.xaa] []), None))
  /\ (forall r, ParseIERecursive [Byte.x04; Byte.x01; Byte.xaa; Byte.xbb] = Ret r ->
        exists children,
          r = (Some (set_IE (mkIE Byte.x04 1 [Byte.xaa] []) children), None)).
Proof.
  apply (flat_and_recursive_agree [Byte.x04; Byte.x01; Byte.xaa; Byte.xbb]
           (mkIE Byte.x04 1 [Byte.xaa] [])).
  reflexivity.
Defined.

Lemma well_formed_unfold (i : IE) :
  well_formed i <->
  Length i = len (Value i)
  /\ (iIE i = [] \/ Form (iTag i) = Constructor)
  /\ Forall well_formed (iIE i).
Proof.
  destruct i as [t n v cs]. cbn [well_formed Length Value iIE iTag].
  assert (Hall : (fix all (l : list IE) : Prop :=
                    match l with
                    | [] => True
                    | c :: l' => well_formed c /\ all l'
                    end) cs <-> Forall well_formed cs).
  { induction cs as [|c cs IH]; [split; constructor|].
    split.
    - intros [Hc Hcs]. constructor; [exact Hc|apply IH; exact Hcs].
    - intros H. inversion H; subst. split; [assumption|apply IH; assumption]. }
  rewrite Hall. reflexivity.
Qed.

Lemma slice_from_inv (b b' : list byte) (lo : Z) :
  slice_from b lo = Ret b' -> 0 <= lo <= len b /\ b' = skipn (Z.to_nat lo) b.
Proof.
  intros H. destruct (Z.lt_ge_cases lo 0) as [Hneg|Hpos].
  - unfold slice_from, slice in H. destruct (Z.leb_spec 0 lo); [lia|].
    discriminate H.
  - destruct (Z.le_gt_cases lo (len b)).
    + rewrite slice_from_ok in H by lia. injection H as <-. split; [lia|reflexivity].
    + rewrite slice_from_panic in H by lia. discriminate H.
Qed.

(** The element a successful [ParseIERecursive] returns: either its
    declared length overruns the buffer and it has neither value nor
    children, or its length is that of its value and its children, if
    any, are what the sequence parser returned for the value of a
    constructed element. *)
Lemma ParseIERecursive_with_shape
      (rec : list byte -> run (list IE * option error)) (b : list byte) (i : IE) :
  ParseIERecursive_with rec b = Ret (Some i, None) ->
  (len b < Length i + 2 /\ iIE i = [])
  \/ (Length i = len (Value i)
      /\ (iIE i = []
          \/ (Form (iTag i) = Constructor
              /\ exists v, rec v = Ret (iIE i, None)))).
Proof.
  unfold ParseIERecursive_with. intros Hp.
  destruct (Z.lt_ge_cases (len b) 2) as [Hs|Hb].
  - rewrite ParseRecursive_with_short in Hp by assumption. discriminate Hp.
  - destruct (decoder_returns b Hb) as (n & e & Hdec).
    rewrite (ParseRecursive_with_decoded _ zeroIE b n e Hb Hdec) in Hp. cbv zeta in Hp.
    destruct e; [discriminate Hp|].
    pose proof (decoded_length_range b n Hdec) as Hn.
    destruct (Z.gtb_spec (n + 2) (len b)).
    { injection Hp as <-. left. cbn. split; [lia|reflexivity]. }
    right. rewrite slice_ok in Hp by lia. cbn [bind] in Hp.
    set (v := firstn (Z.to_nat (2 + n - 2)) (skipn (Z.to_nat 2) b)) in *.
    assert (Hv : n = len v).
    { unfold v, len in *. rewrite length_firstn, length_skipn. lia. }
    destruct (Z.eqb_spec (Form (nth 0 b Byte.x00)) 1) as [Hform|_].
    + destruct (rec v) as [[x [err|]]| |] eqn:Hx; cbn [bind snd fst] in Hp;
        try discriminate Hp; injection Hp as <-; cbn [Length Value iIE iTag zeroIE app].
      * split; [exact Hv|now left].
      * split; [exact Hv|right]. split; [exact Hform|]. exists v. exact Hx.
    + injection Hp as <-. cbn. split; [exact Hv|now left].
Qed.

(** The outcomes of the loop of [ParseAsBER], by induction on its fuel. *)
Lemma ParseAsBER_loop_outcomes (fuel : nat) :
  forall (acc : list IE) (b : list byte),
    (forall ies, ParseAsBER_loop fuel acc b = Ret (ies, None) ->
       exists tl, ies = acc ++ tl /\ Forall well_formed tl /\ total_advance tl = len b)
    /\ (forall ies e, ParseAsBER_loop fuel acc b = Ret (ies, Some e) -> ies = []).
Proof.
  induction fuel as [|fuel IH]; intros acc b.
  { cbn. split; intros; discriminate. }
  rewrite ParseAsBER_loop_step. destruct (Z.eqb_spec (len b) 0) as [Hz|Hnz].
  { split; [|discriminate].
    intros ies [= <-]. exists []. rewrite app_nil_r. repeat split; [constructor|].
    cbn. lia. }
  destruct (ParseIERecursive_with (ParseAsBER_loop fuel []) b)
    as [[[i|] [e|]]| |] eqn:Hp; cbn [bind]; try (split; intros; discriminate).
  - split; [discriminate|]. intros ies e' [= <- _]. reflexivity.
  - destruct (slice_from b (cursor_advance i)) as [rest| |] eqn:Hs; cbn [bind];
      try (split; intros; discriminate).
    destruct (slice_from_inv _ _ _ Hs) as (Hadv & Erest).
    assert (Hrest : len rest = len b - cursor_advance i)
      by (rewrite Erest; unfold len in *; rewrite length_skipn; lia).
    assert (Hwf : well_formed i).
    { destruct (ParseIERecursive_with_shape _ _ _ Hp) as [[Hover Hnil]|[Hlen Hch]].
      - exfalso. unfold cursor_advance in Hadv. rewrite Hnil in Hadv.
        pose proof (MarshalLen_header i). lia.
      - apply well_formed_unfold. split; [exact Hlen|].
        destruct Hch as [Hnil|(Hform & v & Hv)].
        + rewrite Hnil. split; [now left|constructor].
        + split; [now right|].
          destruct (proj1 (IH [] v) _ Hv) as (tl & E & Hall & _).
          cbn [app] in E. rewrite E. exact Hall. }
    destruct (IH (acc ++ [i]) rest) as (Hok & Herr).
    split; [|exact Herr].
    intros ies Hl. destruct (Hok ies Hl) as (tl & -> & Hall & Htl).
    exists (i :: tl). rewrite <- app_assoc. split; [reflexivity|].
    split; [constructor; assumption|].
    cbn [total_advance fold_right]. fold (total_advance tl). lia.
  - split; [discriminate|]. intros ies e' [= <- _]. reflexivity.
Qed.

(** X20. When [ParseAsBER] succeeds it returns well-formed trees: at
    every node, at every depth, the length is that of the value, and
    only nodes with a constructed tag have children; and the cursor
    advances of the top-level elements add up to [len(b)], so no byte of
    the input is left over.  When it fails it returns no elements. *)
Theorem recursive_sequence_result (b : list byte) (ies : list IE) (e : option error) :
  ParseAsBER b = Ret (ies, e) ->
  match e with
  | None => Forall well_formed ies /\ total_advance ies = len b
  | Some _ => ies = []
  end.
Proof.
  unfold ParseAsBER. intros H.
  destruct (ParseAsBER_loop_outcomes (S (length b)) [] b) as (Hok & Herr).
  destruct e as [err|].
  - exact (Herr _ _ H).
  - destruct (Hok _ H) as (tl & -> & Hall & Htl). split; assumption.
Qed.

Lemma recursive_sequence_result_witness :
  let c1 := mkIE Byte.x04 1 [Byte.xaa] [] in
  let c2 := mkIE Byte.x05 1 [Byte.xbb] [] in
  let i := mkIE Byte.x30 6
                [Byte.x04; Byte.x01; Byte.xaa; Byte.x05; Byte.x01; Byte.xbb] [c1; c2] in
  Forall well_formed [i; mkIE Byte.x06 0 [] []]
  /\ total_advance [i; mkIE Byte.x06 0 [] []]
     = len [Byte.x30; Byte.x06; Byte.x04; Byte.x01; Byte.xaa;
            Byte.x05; Byte.x01; Byte.xbb; Byte.x06; Byte.x00].
Proof.
  apply (recursive_sequence_result
           [Byte.x30; Byte.x06; Byte.x04; Byte.x01; Byte.xaa;
            Byte.x05; Byte.x01; Byte.xbb; Byte.x06; Byte.x00]
           [mkIE Byte.x30 6
                 [Byte.x04; Byte.x01; Byte.xaa; Byte.x05; Byte.x01; Byte.xbb]
                 [mkIE Byte.x04 1 [Byte.xaa] []; mkIE Byte.x05 1 [Byte.xbb] []];
            mkIE Byte.x06 0 [] []]
           None).
  reflexivity.
Defined.

(** ** Out-of-range tag fields *)

Lemma lor_shiftl_low (a v k : Z) :
  0 <= k -> 0 <= v < 2 ^ k -> Z.lor (Z.shiftl a k) v = a * 2 ^ k + v.
Proof.
  intros Hk Hv.
  rewrite Z.shiftl_mul_pow2 by lia.
  rewrite <- Z.lxor_lor, <- Z.add_nocarry_lxor; try reflexivity.
  all: apply Z.bits_inj'; intros n Hn;
    rewrite Z.land_spec, Z.bits_0;
    destruct (Z.ltb_spec n k) as [Hlt|Hge].
  1,3: rewrite Z.mul_pow2_bits_low by lia; reflexivity.
  all: replace (Z.testbit v n) with false;
    [ apply andb_false_r | symmetry ];
    (destruct (Z.eq_dec v 0) as [->|Hnz]; [ apply Z.bits_0 | ]);
    apply Z.bits_above_log2; try lia;
    assert (Z.log2 v < k) by (apply Z.log2_lt_pow2; lia); lia.
Qed.

Lemma land_shiftl_ones5 (a k : Z) : 5 <= k -> Z.land (Z.shiftl a k) (Z.ones 5) = 0.
Proof.
  intros Hk. apply Z.bits_inj'. intros n Hn.
  rewrite Z.land_spec, Z.bits_0.
  destruct (Z.ltb_spec n 5).
  - rewrite Z.shiftl_spec_low by lia. reflexivity.
  - rewrite Z.ones_spec_high by lia. apply andb_false_r.
Qed.

(** X21. [NewTag] never fails on fields outside their ranges; the byte
    conversion cuts them: whatever the class and the form, [Code] of the
    tag is the code modulo 32, and with the form and the code in range
    the class read back is the class modulo 4. *)
Theorem NewTag_out_of_range (cls form code : Z) :
  Code (NewTag cls form code) = code mod 32
  /\ (0 <= form <= 1 -> 0 <= code <= 31 ->
      tag_fields (NewTag cls form code) = (cls mod 4, form, code)).
Proof.
  split.
  - unfold Code, NewTag. rewrite u8_to_byte.
    change 31 with (Z.ones 5). rewrite Z.land_ones by lia.
    change (2 ^ 5) with 32.
    rewrite (Z.mod_mod_divide _ 256 32) by (exists 8; reflexivity).
    change 32 with (2 ^ 5) at 1. rewrite <- Z.land_ones by lia.
    rewrite !Z.land_lor_distr_l, !land_shiftl_ones5 by lia.
    cbn [Z.lor]. rewrite Z.land_ones by lia. reflexivity.
  - intros Hf Hc.
    assert (E : NewTag cls form code = NewTag (cls mod 4) form code).
    { unfold NewTag. apply u8_inj. rewrite !u8_to_byte.
      assert (Hx : forall c,
                 Z.lor (Z.lor (Z.shiftl c 6) (Z.shiftl form 5)) code
                 = c * 64 + form * 32 + code).
      { intros c. rewrite (Z.shiftl_mul_pow2 form) by lia. change (2 ^ 5) with 32.
        rewrite lor_shiftl_low by (change (2 ^ 6) with 64; lia).
        change (2 ^ 6) with 64.
        replace (c * 64 + form * 32) with (Z.shiftl (c * 2 + form) 5)
          by (rewrite Z.shiftl_mul_pow2 by lia; change (2 ^ 5) with 32; lia).
        rewrite lor_shiftl_low by (change (2 ^ 5) with 32; lia).
        rewrite ?Z.shiftl_mul_pow2 by lia. change (2 ^ 5) with 32. lia. }
      rewrite !Hx.
      pose proof (Z.div_mod cls 4 ltac:(lia)) as Hq.
      pose proof (Z.mod_pos_bound cls 4 ltac:(lia)).
      replace (cls * 64 + form * 32 + code)
        with ((cls mod 4 * 64 + form * 32 + code) + (cls / 4) * 256) by lia.
      apply Z.mod_add. lia. }
    rewrite E. apply tag_fields_in_range; try assumption.
    pose proof (Z.mod_pos_bound cls 4 ltac:(lia)). lia.
Qed.

Lemma NewTag_out_of_range_witness :
  Code (NewTag 7 1 45) = 45 mod 32
  /\ tag_fields (NewTag 7 1 13) = (7 mod 4, 1, 13).
Proof.
  split.
  - apply (NewTag_out_of_range 7 1 45).
  - apply (proj2 (NewTag_out_of_range 7 1 13)); lia.
Defined.

(** ** The flat parser on long-form headers and on longer buffers *)

(** X22. The flat parser takes the value from offset 2 also behind a
    long-form header: for a header that announces [k] octets denoting the
    length [n], [ParseIE] fails with [io.ErrUnexpectedEOF] when fewer
    than [n] bytes follow the header byte, and otherwise returns as value
    the [n] bytes that follow the header byte, the length octets first. *)
Theorem flat_parse_long_form_value (t h : byte) (octets rest : list byte) :
  1 <= len octets <= 127 -> u8 h = 128 + len octets ->
  let n := be_value octets mod 2 ^ 32 in
  ParseIE (t :: h :: octets ++ rest) =
  if len octets + len rest <? n
  then Ret (None, Some ErrUnexpectedEOF)
  else Ret (Some (mkIE t n (firstn (Z.to_nat n) (octets ++ rest)) []), None).
Proof.
  intros Hk Hh. cbv zeta.
  set (n := be_value octets mod 2 ^ 32).
  set (b := t :: h :: octets ++ rest).
  pose proof (len_nonneg rest).
  assert (Hb : len b = 2 + len octets + len rest)
    by (unfold b; rewrite !len_cons, len_app; lia).
  assert (Hn : 0 <= n < 2 ^ 32) by (apply Z.mod_pos_bound; lia).
  assert (Hd : UnmarshalAsn1ElementLength b = Ret (n, None)).
  { rewrite decoders_agree by lia. unfold b.
    rewrite decode_long_form_wraps by assumption. reflexivity. }
  unfold ParseIE.
  rewrite (UnmarshalBinary_decoded zeroIE b _ _ ltac:(lia) Hd).
  destruct (Z.ltb_spec (len b) (2 + n)); destruct (Z.ltb_spec (len octets + len rest) n);
    try lia; [reflexivity|].
  rewrite slice_ok by lia. cbn [bind snd fst].
  replace (2 + n - 2) with n by lia.
  change (Z.to_nat 2) with 2%nat. unfold b. cbn [nth skipn]. reflexivity.
Qed.

Lemma flat_parse_long_form_value_witness :
  ParseIE (Byte.x04 :: Byte.x81 :: [Byte.x03] ++ [Byte.xaa; Byte.xbb; Byte.xcc]) =
  if len [Byte.x03] + len [Byte.xaa; Byte.xbb; Byte.xcc] <? be_value [Byte.x03] mod 2 ^ 32
  then Ret (None, Some ErrUnexpectedEOF)
  else Ret (Some (mkIE Byte.x04 (be_value [Byte.x03] mod 2 ^ 32)
                       (firstn (Z.to_nat (be_value [Byte.x03] mod 2 ^ 32))
                               ([Byte.x03] ++ [Byte.xaa; Byte.xbb; Byte.xcc])) []),
            None).
Proof.
  apply (flat_parse_long_form_value Byte.x04 Byte.x81 [Byte.x03]
           [Byte.xaa; Byte.xbb; Byte.xcc]).
  - cbn. lia.
  - reflexivity.
Defined.

(** X23. [ParseIE] reads the element at the front of the buffer only: an
    element it parses from a buffer is parsed, unchanged, from every
    extension of that buffer. *)
Theorem flat_parse_ignores_trailing_bytes (b extra : list byte) (i : IE) :
  ParseIE b = Ret (Some i, None) -> ParseIE (b ++ extra) = Ret (Some i, None).
Proof.
  intros Hp.
  destruct (ParseIE_success b i Hp) as (Hb & Hdec & H0 & H2).
  destruct (ParseIE_success_shape b i Hp) as (Hi & _).
  pose proof (len_nonneg extra).
  assert (Hd : UnmarshalAsn1ElementLength (b ++ extra) = Ret (Length i, None)).
  { rewrite decoders_agree in Hdec by lia.
    rewrite decoders_agree by (rewrite len_app; lia).
    destruct (Util.UnmarshalAsn1ElementLength b) as [[n c] e] eqn:Hu.
    cbn [fst snd] in Hdec. injection Hdec as -> ->.
    rewrite (decode_app b extra _ _ Hu). reflexivity. }
  unfold ParseIE.
  rewrite (UnmarshalBinary_decoded zeroIE (b ++ extra) _ _
             ltac:(rewrite len_app; lia) Hd).
  rewrite len_app.
  destruct (Z.ltb_spec (len b + len extra) (2 + Length i)); [lia|].
  rewrite slice_ok by (rewrite ?len_app; lia). cbn [bind snd fst iIE zeroIE].
  replace (2 + Length i - 2) with (Length i) by lia.
  change (Z.to_nat 2) with 2%nat.
  rewrite (app_nth1 b extra) by (unfold len in *; lia).
  rewrite skipn_app, firstn_app.
  replace (2 - length b)%nat with 0%nat by (unfold len in *; lia).
  replace (Z.to_nat (Length i) - length (skipn 2 b))%nat with 0%nat
    by (rewrite length_skipn; unfold len in *; lia).
  cbn [skipn firstn]. rewrite app_nil_r.
  exact (f_equal (fun x => Ret (Some x, @None error)) (eq_sym Hi)).
Qed.

Lemma flat_parse_ignores_trailing_bytes_witness :
  ParseIE ([Byte.x04; Byte.x01; Byte.xaa] ++ [Byte.x05; Byte.x00])
  = Ret (Some (mkIE Byte.x04 1 [Byte.xaa] []), None).
Proof.
  apply (flat_parse_ignores_trailing_bytes [Byte.x04; Byte.x01; Byte.xaa]
           [Byte.x05; Byte.x00] (mkIE Byte.x04 1 [Byte.xaa] [])).
  reflexivity.
Defined.
